(** * Replay acquisition pipeline of retake-cs2: a shallow embedding

    The definitions below follow [scripts/replay_downloader.js] function by
    function.  The job table is a list of rows, the process-local globals of
    the script are explicit state, and everything the script obtains from the
    outside world (clock readings, coordinator events, HTTP responses, the
    friends list) is an explicit argument.  The database is taken to answer
    every statement: connection failures are not modelled. *)

From stdpp Require Import gmap strings list sorting pretty.
From Stdlib Require Import ZArith Lia.

Open Scope Z_scope.

(** ** The job store: table [public.matches_to_download] *)

Module JobStore.

(** Values of the [status] column. *)
Inductive Status :=
| pending | processing | downloaded | error | processed | parsed | notified.

#[global] Instance Status_eq_dec : EqDecision Status.
Proof. solve_decision. Defined.

(** One row of the table. *)
Record Job := mkJob {
  id : Z;
  share_code : string;
  user_id : string;
  status : Status;
  file_path : option string;
  coach_tip : option string;
  tip_sent : option bool
}.

#[global] Instance Job_eq_dec : EqDecision Job.
Proof. solve_decision. Defined.

(** The row shape returned by the claiming query.  [user_steam_id] is
    [coalesce(u.steam_id::text, pending.user_id::text)] under a left join
    on [u.steam_id::text = pending.user_id::text]: both branches of the
    coalesce are the text of [user_id]. *)
Record Row := mkRow {
  row_id : Z;
  row_share_code : string;
  row_user_id : string;
  user_steam_id : string
}.

Definition row_of (j : Job) : Row :=
  mkRow (id j) (share_code j) (user_id j) (user_id j).

Definition with_status (s : Status) (j : Job) : Job :=
  mkJob (id j) (share_code j) (user_id j) s
        (file_path j) (coach_tip j) (tip_sent j).

(** [update ... set <f> where id = $1] *)
Definition update_where_id (f : Job → Job) (i : Z) (t : list Job) : list Job :=
  (λ j, if decide (id j = i) then f j else j) <$> t.

(** [select max(id) from matches_to_download m2 where m2.user_id = u];
    [None] is SQL's NULL for an empty group. *)
Definition max_id_of_user (t : list Job) (u : string) : option Z :=
  foldr (λ j acc,
           if decide (user_id j = u)
           then Some (match acc with
                      | Some m => Z.max (id j) m
                      | None => id j
                      end)
           else acc) None t.

(** The [where] clause of the [pending] CTE, for a row [m] of table [t]. *)
Definition eligible (t : list Job) (m : Job) : Prop :=
  status m = pending ∧ max_id_of_user t (user_id m) = Some (id m).

#[global] Instance eligible_dec t m : Decision (eligible t m).
Proof. unfold eligible. apply _. Defined.

(** [order by id desc limit 1] over the rows handed to it. *)
Definition highest (rows : list Job) : option Job :=
  foldr (λ j acc,
           match acc with
           | Some k => if decide (id k < id j) then Some j else Some k
           | None => Some j
           end) None rows.

(** The rows the CTE can return: the [where] clause holds and the row is
    not locked by another transaction ([for update skip locked]). *)
Definition claimable (locked : list Z) (t : list Job) : list Job :=
  filter (λ m, eligible t m ∧ id m ∉ locked) t.

(** [getPendingMatch]: the result row (or [None] for [null]) and the table
    after [COMMIT].  [locked] holds the ids of rows locked by concurrent
    transactions when the query runs. *)
Definition getPendingMatch (locked : list Z) (t : list Job)
  : option Row * list Job :=
  match highest (claimable locked t) with
  | None => (None, t)
  | Some j => (Some (row_of j), update_where_id (with_status processing) (id j) t)
  end.

Definition markDownloaded (i : Z) (filePath : string) (t : list Job) : list Job :=
  update_where_id
    (λ j, mkJob (id j) (share_code j) (user_id j) downloaded
                (Some filePath) (coach_tip j) (tip_sent j)) i t.

Definition markError (i : Z) (t : list Job) : list Job :=
  update_where_id (with_status error) i t.

Definition markPending (i : Z) (t : list Job) : list Job :=
  update_where_id (with_status pending) i t.

Definition markTipSent (i : Z) (t : list Job) : list Job :=
  update_where_id
    (λ j, mkJob (id j) (share_code j) (user_id j) notified
                (file_path j) (coach_tip j) (Some true)) i t.

(** The [where] clause of [fetchPendingTips]. *)
Definition tip_due (m : Job) : Prop :=
  (status m = processed ∨ status m = parsed)
  ∧ is_Some (coach_tip m)
  ∧ (tip_sent m = None ∨ tip_sent m = Some false).

#[global] Instance tip_due_dec m : Decision (tip_due m).
Proof. unfold tip_due. apply _. Defined.

(** A row of [fetchPendingTips]: [id], [user_id], [coach_tip] and the
    coalesced [user_steam_id]. *)
Record TipRow := mkTipRow {
  tip_id : Z;
  tip_user_id : string;
  tip_text : string;
  tip_steam_id : string
}.

Definition tip_row_of (m : Job) : TipRow :=
  mkTipRow (id m) (user_id m) (default "" (coach_tip m)) (user_id m).

(** [order by m.id asc] *)
Definition id_le (a b : Job) : Prop := id a ≤ id b.

#[global] Instance id_le_dec a b : Decision (id_le a b).
Proof. unfold id_le. apply _. Defined.

Definition fetchPendingTips (t : list Job) : list TipRow :=
  tip_row_of <$> merge_sort id_le (filter tip_due t).

(** Operations that change the table: the script's own statements, and
    the insertion of a fresh [pending] row by the web application. *)
Inductive Op :=
| OpClaim (locked : list Z)
| OpMarkDownloaded (i : Z) (filePath : string)
| OpMarkError (i : Z)
| OpMarkPending (i : Z)
| OpMarkTipSent (i : Z)
| OpInsert (i : Z) (code user : string).

Definition new_job (i : Z) (code user : string) : Job :=
  mkJob i code user pending None None None.

Definition apply_op (o : Op) (t : list Job) : list Job :=
  match o with
  | OpClaim locked => (getPendingMatch locked t).2
  | OpMarkDownloaded i p => markDownloaded i p t
  | OpMarkError i => markError i t
  | OpMarkPending i => markPending i t
  | OpMarkTipSent i => markTipSent i t
  | OpInsert i code user => t ++ [new_job i code user]
  end.

Definition run (ops : list Op) (t : list Job) : list Job :=
  foldl (λ acc o, apply_op o acc) t ops.




(** Two rows of one user, both [pending], used in the examples. *)
Definition parked_table : list Job :=
  [new_job 10 "CSGO-older" "76561198000000001";
   new_job 12 "CSGO-newer" "76561198000000001"].

(** The reading of the prose: the highest-id [pending] row of its user. *)
Definition highest_pending_of_user (t : list Job) (j : Job) : Prop :=
  j ∈ t ∧ status j = pending
  ∧ ∀ k, k ∈ t → user_id k = user_id j → status k = pending → id k ≤ id j.

(** The second half of the query's gate: the row has the highest id among
    the rows of its user, whatever their status. *)
Definition newest_of_user (t : list Job) (j : Job) : Prop :=
  ∀ k, k ∈ t → user_id k = user_id j → id k ≤ id j.


End JobStore.

(** ** JavaScript values of a coordinator response *)

Module Js.

(** The decoded [matchList] payload: a tree of plain objects, arrays and
    scalars.  [VNum] carries an integer-valued number; [VObj] lists the own
    properties in the order [Object.values] enumerates them; [VFun] is what
    reading an inherited method such as [Array.prototype.map] yields. *)
#[local] Unset Elimination Schemes.
Inductive value :=
| VUndefined
| VNull
| VBool (b : bool)
| VNum (n : Z)
| VStr (s : string)
| VArr (items : list value)
| VObj (fields : list (string * value))
| VFun.
#[local] Set Elimination Schemes.

(** [!!v] *)
Definition truthy (v : value) : bool :=
  match v with
  | VUndefined | VNull => false
  | VBool b => b
  | VNum n => negb (n =? 0)
  | VStr s => negb (String.eqb s "")
  | VArr _ | VObj _ | VFun => true
  end.

(** [a || b] *)
Definition or_else (a b : value) : value := if truthy a then a else b.

(** [typeof v === "string" && v.length], as a boolean. *)
Definition nonempty_string (v : value) : bool :=
  match v with
  | VStr s => negb (String.eqb s "")
  | _ => false
  end.

(** [typeof v === "object"]; JavaScript answers ["object"] for [null]. *)
Definition typeof_object (v : value) : bool :=
  match v with
  | VNull | VArr _ | VObj _ => true
  | _ => false
  end.

Definition isArray (v : value) : bool :=
  match v with VArr _ => true | _ => false end.

(** [hay.includes(needle)] *)
Fixpoint includes (needle hay : string) : bool :=
  String.prefix needle hay
  || match hay with
     | EmptyString => false
     | String _ rest => includes needle rest
     end.

(** [String(v)], also the conversion inside a template literal.  A number
    prints its decimal digits: that is JavaScript's text for the integers up
    to 2^53, and has the length of JavaScript's text for the integers below
    10^21.  An array prints its elements joined by commas, [null] and
    [undefined] elements as the empty string.  The text of a function never
    matters here. *)
Fixpoint to_string (v : value) : string :=
  match v with
  | VUndefined => "undefined"
  | VNull => "null"
  | VBool true => "true"
  | VBool false => "false"
  | VNum n => pretty n
  | VStr s => s
  | VArr items =>
      (fix join (l : list value) : string :=
         match l with
         | [] => ""
         | x :: rest =>
             let sx := match x with
                       | VUndefined | VNull => ""
                       | _ => to_string x
                       end in
             match rest with
             | [] => sx
             | _ :: _ => sx +:+ "," +:+ join rest
             end
         end) items
  | VObj _ => "[object Object]"
  | VFun => "function () { [native code] }"
  end.

(** The first [n] characters of [cur] followed by [pad] repeated. *)
Fixpoint fill (n : nat) (pad cur : string) : string :=
  match n with
  | O => ""
  | S n' =>
      match cur with
      | String c rest => String c (fill n' pad rest)
      | EmptyString =>
          match pad with
          | String c rest => String c (fill n' pad rest)
          | EmptyString => ""
          end
      end
  end.

(** [s.padStart(targetLength, pad)] *)
Definition padStart (s : string) (targetLength : nat) (pad : string) : string :=
  if decide (targetLength ≤ String.length s)%nat then s
  else if decide (pad = "") then s
  else fill (targetLength - String.length s) pad pad +:+ s.

(** The number of nodes of a value. *)
Fixpoint size (v : value) : nat :=
  match v with
  | VArr items =>
      S ((fix sum (l : list value) : nat :=
            match l with [] => O | x :: rest => (size x + sum rest)%nat end) items)
  | VObj fields =>
      S ((fix sum (l : list (string * value)) : nat :=
            match l with [] => O | x :: rest => (size x.2 + sum rest)%nat end) fields)
  | _ => 1%nat
  end.

End Js.

(** ** The replay URL resolver *)

Module Resolver.
Import Js.

(** The property names the script reads. *)
Inductive Key :=
| k_match | k_matches | k_replay_url | k_watchablematchinfo | k_server_ip
| k_tv_port | k_round_stats_all | k_reservation | k_map | k_reservationid.

#[global] Instance Key_eq_dec : EqDecision Key.
Proof. solve_decision. Defined.

Definition key_name (k : Key) : string :=
  match k with
  | k_match => "match"
  | k_matches => "matches"
  | k_replay_url => "replay_url"
  | k_watchablematchinfo => "watchablematchinfo"
  | k_server_ip => "server_ip"
  | k_tv_port => "tv_port"
  | k_round_stats_all => "round_stats_all"
  | k_reservation => "reservation"
  | k_map => "map"
  | k_reservationid => "reservationid"
  end.

Fixpoint own_property (name : string) (fields : list (string * value)) : value :=
  match fields with
  | [] => VUndefined
  | (n, v) :: rest => if String.eqb n name then v else own_property name rest
  end.

(** [v?.k] for one of the names above (and [v.k] when [v] is an object).
    Of these names, arrays inherit [map] and strings inherit [match]; the
    other scalars and functions have none of them. *)
Definition get (v : value) (k : Key) : value :=
  match v with
  | VObj fields => own_property (key_name k) fields
  | VArr _ => if decide (k = k_map) then VFun else VUndefined
  | VStr _ => if decide (k = k_match) then VFun else VUndefined
  | _ => VUndefined
  end.

(** [v?.[0]] *)
Definition first (v : value) : value :=
  match v with
  | VArr items => default VUndefined (head items)
  | VObj fields => own_property "0" fields
  | VStr (String c _) => VStr (String c EmptyString)
  | _ => VUndefined
  end.

(** [Array.isArray(v) ? v[v.length - 1] : null] *)
Definition lastOrNull (v : value) : value :=
  match v with
  | VArr items => default VUndefined (last items)
  | _ => VNull
  end.

Definition lastRoundOf (matchList : value) : value :=
  lastOrNull (or_else (get matchList k_round_stats_all)
                      (get (first matchList) k_round_stats_all)).

(** [String(reservationId).padStart(21, "0")] *)
Definition paddedReservation (reservationId : value) : string :=
  padStart (to_string reservationId) 21 "0".

(** [buildReplayUrl], for a [matchList] that is neither [null] nor
    [undefined]: on those two the plain accesses
    [matchList.watchablematchinfo] and [matchList.round_stats_all] throw a
    [TypeError] in the source, and no value is returned.  [findReplayUrl],
    its only caller, calls it behind [!matchList || typeof matchList !==
    "object"]. *)
Definition buildReplayUrl (matchList : value) : value :=
  let watchable := or_else (get matchList k_watchablematchinfo)
                           (get (first matchList) k_watchablematchinfo) in
  let serverIp := get watchable k_server_ip in
  let tvPort := get watchable k_tv_port in
  let reservationId := get (lastRoundOf matchList) k_reservationid in
  if negb (truthy serverIp) || negb (truthy tvPort) || negb (truthy reservationId)
  then VNull
  else VStr ("http://replay" +:+ to_string serverIp +:+ ".valve.net/730/"
             +:+ paddedReservation reservationId +:+ "_"
             +:+ to_string tvPort +:+ ".dem.bz2").

(** The [while (queue.length)] loop of [findReplayUrlInObject]; one unit of
    [fuel] per iteration. *)
Fixpoint search (fuel : nat) (maxDepth : nat) (queue : list (value * nat)) : value :=
  match fuel with
  | O => VNull
  | S fuel' =>
      match queue with
      | [] => VNull
      | (node, depth) :: rest =>
          if negb (truthy node) || (maxDepth <? depth)%nat
          then search fuel' maxDepth rest
          else match node with
               | VStr s =>
                   if includes ".dem.bz2" s then node
                   else search fuel' maxDepth rest
               | VArr items =>
                   search fuel' maxDepth
                          (rest ++ ((λ item, (item, S depth)) <$> items))
               | VObj fields =>
                   search fuel' maxDepth
                          (rest ++ ((λ f, (f.2, S depth)) <$> fields))
               | _ => search fuel' maxDepth rest
               end
      end
  end.

(** The number of nodes waiting in the queue, subtrees included: a bound
    on the iterations still to come. *)
Definition queue_size (queue : list (value * nat)) : nat :=
  foldr (λ e acc, (size e.1 + acc)%nat) O queue.

Definition findReplayUrlInObject (v : value) : value :=
  search (S (size v)) 6 [(v, O)].

(** [lastRound?.reservation?.replay_url || lastRound?.map || lastRound?.replay_url] *)
Definition alternativeUrl (matchList : value) : value :=
  let lastRound := lastRoundOf matchList in
  or_else (or_else (get (get lastRound k_reservation) k_replay_url)
                   (get lastRound k_map))
          (get lastRound k_replay_url).

(** The first six entries of [candidates]: fields read off the response. *)
Definition directCandidates (matchList : value) : list value :=
  [ get (get matchList k_match) k_replay_url;
    get (get (first (get matchList k_matches)) k_match) k_replay_url;
    get (first (get matchList k_matches)) k_replay_url;
    get matchList k_replay_url;
    get (first matchList) k_replay_url;
    alternativeUrl matchList ].

(** [candidates.find(...)]; [undefined] when nothing qualifies. *)
Definition findCandidate (candidates : list value) : value :=
  default VUndefined (List.find nonempty_string candidates).

Definition findReplayUrl (matchList : value) : value :=
  if negb (truthy matchList) || negb (typeof_object matchList) then VNull
  else
    let candidates :=
      [ get (get matchList k_match) k_replay_url;
        get (get (first (get matchList k_matches)) k_match) k_replay_url;
        get (first (get matchList k_matches)) k_replay_url;
        get matchList k_replay_url;
        get (first matchList) k_replay_url;
        alternativeUrl matchList;
        buildReplayUrl matchList;
        findReplayUrlInObject matchList ] in
    findCandidate candidates.

(** A response that carries a direct field and everything the derived URL
    needs. *)
Definition sample_response : value :=
  VObj [ ("match", VObj [("replay_url", VStr "http://direct.example/demo.dem.bz2")]);
         ("watchablematchinfo",
           VObj [("server_ip", VNum 123); ("tv_port", VNum 27015)]);
         ("round_stats_all", VArr [VObj [("reservationid", VNum 42)]]) ].

(** The same response without the direct field. *)
Definition derived_only_response : value :=
  VObj [ ("watchablematchinfo",
           VObj [("server_ip", VNum 123); ("tv_port", VNum 27015)]);
         ("round_stats_all", VArr [VObj [("reservationid", VNum 42)]]) ].

(** A response whose reservation id is a text of 22 digits. *)
Definition long_id_response : value :=
  VObj [ ("watchablematchinfo",
           VObj [("server_ip", VNum 123); ("tv_port", VNum 27015)]);
         ("round_stats_all",
           VArr [VObj [("reservationid", VStr "1234567890123456789012")]]) ].

End Resolver.

(** ** Thrown values *)

Module Errors.

(** What the script reads of an [Error]: [name], [message] when it is a
    string, and [cause.code] when there is one. *)
Record JsError := mkError {
  err_name : string;
  err_message : option string;
  err_cause_code : option string
}.

(** A thrown value: an error object, or a falsy value. *)
Inductive thrown :=
| ThrownFalsy
| Thrown (e : JsError).

(** [new Error(msg)] *)
Definition new_Error (msg : string) : thrown :=
  Thrown (mkError "Error" (Some msg) None).

(** [typeof error?.message === "string" ? error.message : ""] *)
Definition message_of (t : thrown) : string :=
  match t with
  | Thrown e => default "" (err_message e)
  | ThrownFalsy => ""
  end.

End Errors.

(** ** The download with retries *)

Module Download.
Import Errors.

Definition maxAttempts : nat := 6.

(** [new Set([502, 503, 504]).has(status)] *)
Definition retryable (status : Z) : bool :=
  (status =? 502) || (status =? 503) || (status =? 504).

Definition isRetryableFetchError (error : thrown) : bool :=
  match error with
  | ThrownFalsy => false
  | Thrown e =>
      let message := default "" (err_message e) in
      String.eqb (err_name e) "AbortError"
      || bool_decide (err_cause_code e = Some "UND_ERR_SOCKET")
      || Js.includes "terminated" message
      || Js.includes "other side closed" message
  end.

(** What streaming a response body through the decompressor into the
    output file comes to. *)
Inductive PipelineResult :=
| PipelineDone
| PipelineThrows (e : thrown).

(** A response: its status, and its body when [response.body] is not
    [null], given by what the pipeline does with it. *)
Record Response := mkResponse {
  resp_status : Z;
  resp_body : option PipelineResult
}.

(** [response.ok] *)
Definition ok (r : Response) : bool :=
  (200 <=? resp_status r) && (resp_status r <=? 299).

(** What [await fetch(url, ...)] comes to; an expired request timeout is
    the [AbortError] thrown by the aborted fetch. *)
Inductive FetchResult :=
| FetchThrows (e : thrown)
| FetchResponse (r : Response).

Definition abortError : thrown :=
  Thrown (mkError "AbortError" (Some "This operation was aborted") None).

Inductive Effect :=
| EFetch (attempt : nat)          (* fetch(url, ...) *)
| EWrite (attempt : nat)          (* pipeline(..., createWriteStream(outputFile)) *)
| ERemove (attempt : nat)         (* fsp.rm(outputFile, { force: true }) *)
| ESleep (ms : Z).                (* sleep(ms) *)

#[global] Instance Effect_eq_dec : EqDecision Effect.
Proof. solve_decision. Defined.

(** How one pass through the loop body ends. *)
Inductive Step :=
| Continue
| Return
| Throw (e : thrown).

(** [new Error(`Replay download failed: ${response.status}`)] *)
Definition statusError (status : Z) : thrown :=
  new_Error ("Replay download failed: " +:+ pretty status).

(** The outer [catch (error)] block. *)
Definition outerCatch (attempt : nat) (error : thrown) : Step * list Effect :=
  if (attempt <? maxAttempts)%nat && isRetryableFetchError error
  then (Continue, [ESleep (3000 * Z.of_nat attempt)])
  else (Throw error, []).

(** The body of the [for] loop, for the attempt numbered [attempt]. *)
Definition loopBody (attempt : nat) (fetched : FetchResult) : Step * list Effect :=
  match fetched with
  | FetchThrows error =>
      let '(step, effects) := outerCatch attempt error in
      (step, EFetch attempt :: effects)
  | FetchResponse response =>
      match ok response, resp_body response with
      | true, Some PipelineDone => (Return, [EFetch attempt; EWrite attempt])
      | true, Some (PipelineThrows error) =>
          if (attempt <? maxAttempts)%nat && isRetryableFetchError error
          then (Continue, [EFetch attempt; EWrite attempt; ERemove attempt;
                           ESleep (3000 * Z.of_nat attempt)])
          else
            (* [throw error] inside the outer [try]: the outer handler runs *)
            let '(step, effects) := outerCatch attempt error in
            (step, [EFetch attempt; EWrite attempt; ERemove attempt] ++ effects)
      | _, _ =>
          if retryable (resp_status response) && (attempt <? maxAttempts)%nat
          then (Continue, [EFetch attempt; ESleep (3000 * Z.of_nat attempt)])
          else (Throw (statusError (resp_status response)), [EFetch attempt])
      end
  end.

(** How the call ends. *)
Inductive Outcome :=
| Returned
| Threw (e : thrown).

(** The loop [for (attempt = 1; attempt <= maxAttempts; attempt += 1)],
    entered at [attempt] with [remaining = maxAttempts + 1 - attempt]
    passes left; [net k] is what the fetch of attempt [k] comes to. *)
Fixpoint attempts (remaining attempt : nat) (net : nat → FetchResult)
  : Outcome * list Effect :=
  match remaining with
  | O => (Returned, [])
  | S remaining' =>
      let '(step, effects) := loopBody attempt (net attempt) in
      match step with
      | Return => (Returned, effects)
      | Throw e => (Threw e, effects)
      | Continue =>
          let '(outcome, later) := attempts remaining' (S attempt) net in
          (outcome, effects ++ later)
      end
  end.

Definition downloadReplay (net : nat → FetchResult) : Outcome * list Effect :=
  attempts maxAttempts 1 net.

(** The waits of a run, in order. *)
Definition sleeps (effects : list Effect) : list Z :=
  omap (λ e, match e with ESleep ms => Some ms | _ => None end) effects.

Definition fetches (effects : list Effect) : list nat :=
  omap (λ e, match e with EFetch a => Some a | _ => None end) effects.

(** A failed attempt that the loop answers with a retry when attempts are
    left: a retryable error thrown by the fetch or by the pipeline, or a
    response that is not a 2xx with a body and whose status is 502, 503 or
    504. *)
Definition retryableFailure (fetched : FetchResult) : bool :=
  match fetched with
  | FetchThrows error => isRetryableFetchError error
  | FetchResponse response =>
      match ok response, resp_body response with
      | true, Some PipelineDone => false
      | true, Some (PipelineThrows error) => isRetryableFetchError error
      | _, _ => retryable (resp_status response)
      end
  end.

Definition status_only (status : Z) : FetchResult :=
  FetchResponse (mkResponse status None).

Definition good_response : FetchResult :=
  FetchResponse (mkResponse 200 (Some PipelineDone)).

(** 502 on attempts 1 to 3, then a good response. *)
Definition three_502_then_ok (attempt : nat) : FetchResult :=
  if (attempt <=? 3)%nat then status_only 502 else good_response.

(** The request of attempt 1 is aborted by its timeout, attempt 2 is good. *)
Definition abort_then_ok (attempt : nat) : FetchResult :=
  if (attempt <=? 1)%nat then FetchThrows abortError else good_response.

(** 502 on every attempt. *)
Definition always_502 (attempt : nat) : FetchResult := status_only 502.

(** 503 on attempts 1 to 5, then 502. *)
Definition five_503_then_502 (attempt : nat) : FetchResult :=
  if (attempt <=? 5)%nat then status_only 503 else status_only 502.

End Download.

(** ** The coordinator client: [requestMatch] *)

Module Coordinator.
Import Errors.

Inductive Settled :=
| Pending
| Resolved (matchList : Js.value)
| Rejected (e : thrown).

(** The event loop as far as [requestMatch] touches it.  A call is known
    by its number; [listeners] are the handlers registered on the
    ["matchList"] event with [csgo.once], [timers] the armed timeouts with
    the time at which they expire, [promises] the state of the promise of
    each call. *)
Record World := mkWorld {
  clock : Z;
  calls : nat;
  listeners : list nat;
  timers : list (nat * Z);
  promises : gmap nat Settled
}.

Definition start : World := mkWorld 0 0 [] [] ∅.

(** [resolve(v)] and [reject(e)]: the first settlement stands. *)
Definition settle (call : nat) (s : Settled) (p : gmap nat Settled)
  : gmap nat Settled :=
  match p !! call with
  | Some Pending => <[call := s]> p
  | _ => p
  end.

(** [clearTimeout(timeout)] *)
Definition clearTimeout (call : nat) (ts : list (nat * Z)) : list (nat * Z) :=
  filter (λ t, t.1 ≠ call) ts.

(** [csgo.removeListener("matchList", handler)] *)
Definition removeListener (call : nat) (ls : list nat) : list nat :=
  filter (λ l, l ≠ call) ls.

Definition timeoutError : thrown := new_Error "Timed out waiting for matchList".

(** The executor of the promise: arm the 20 s timeout, register the
    handler, send the request.  [send] is [Some e] when
    [csgo.requestGame(shareCode)] throws [e]. *)
Definition requestMatch (send : option thrown) (w : World) : nat * World :=
  let call := calls w in
  let armed := timers w ++ [(call, clock w + 20000)] in
  let registered := listeners w ++ [call] in
  let pending := <[call := Pending]> (promises w) in
  match send with
  | None => (call, mkWorld (clock w) (S call) registered armed pending)
  | Some error =>
      (call, mkWorld (clock w) (S call)
                     (removeListener call registered)
                     (clearTimeout call armed)
                     (settle call (Rejected error) pending))
  end.

(** The coordinator emits ["matchList"]: every [once] handler is taken off
    and run; the handler of a call clears that call's timeout and resolves
    its promise. *)
Definition emitMatchList (matchList : Js.value) (w : World) : World :=
  mkWorld (clock w) (calls w) []
          (foldl (λ ts call, clearTimeout call ts) (timers w) (listeners w))
          (foldl (λ p call, settle call (Resolved matchList) p)
                 (promises w) (listeners w)).

(** Time passes: every timeout that has expired by then runs its callback,
    which rejects the promise of its call. *)
Definition elapse (ms : Z) (w : World) : World :=
  let now := clock w + ms in
  let due := filter (λ t, t.2 ≤ now) (timers w) in
  mkWorld now (calls w) (listeners w)
          (filter (λ t, ¬ t.2 ≤ now) (timers w))
          (foldl (λ p t, settle t.1 (Rejected timeoutError) p) (promises w) due).

End Coordinator.

(** ** Messages to users *)

Module Notifier.
Import JobStore.

(** The values of [SteamUser.EFriendRelationship] that the script names.
    The steam-user package is not among the sources; its values are taken
    as given. *)
Record EFriendRelationship := mkRelationships {
  rel_None : Z;
  rel_Blocked : Z;
  rel_Ignored : Z
}.

(** The friends lists of the Steam client, each possibly missing. *)
Record Client := mkClient {
  myFriends : option (gmap string Z);
  friends : option (gmap string Z)
}.

(** [client.myFriends?.[steamId] ?? client.friends?.[steamId]] *)
Definition relationshipOf (client : Client) (steamId : string) : option Z :=
  match myFriends client ≫= (λ m, m !! steamId) with
  | Some r => Some r
  | None => friends client ≫= (λ m, m !! steamId)
  end.

Definition canMessageUser (E : EFriendRelationship) (client : Client)
           (steamId : string) : bool :=
  if String.eqb steamId "" then false
  else match relationshipOf client steamId with
       | None => false
       | Some relationship =>
           negb (relationship =? 0)
           && negb (relationship =? rel_None E)
           && negb (relationship =? rel_Blocked E)
           && negb (relationship =? rel_Ignored E)
       end.

Inductive Effect :=
| ESend (steamId text : string) (threw : bool)  (* client.chat.sendFriendMessage *)
| EMarkTipSent (id : Z).                        (* markTipSent(row.id) *)

(** The [for (const row of rows)] loop of [sendPendingMessages];
    [sendThrows row] tells whether [sendFriendMessage] throws for it. *)
Fixpoint sendRows (E : EFriendRelationship) (client : Client)
         (sendThrows : TipRow → bool) (rows : list TipRow)
         (db : list Job) : list Job * list Effect :=
  match rows with
  | [] => (db, [])
  | row :: rest =>
      let steamId := tip_steam_id row in
      if negb (canMessageUser E client steamId)
      then sendRows E client sendThrows rest db
      else if sendThrows row
           then
             let '(db', log) := sendRows E client sendThrows rest db in
             (db', ESend steamId (tip_text row) true :: log)
           else
             let '(db', log) :=
               sendRows E client sendThrows rest (markTipSent (tip_id row) db) in
             (db', ESend steamId (tip_text row) false
                   :: EMarkTipSent (tip_id row) :: log)
  end.

Record State := mkState {
  isSendingTips : bool;
  steamReady : bool;
  db : list Job
}.

Definition sendPendingMessages (E : EFriendRelationship) (client : Client)
           (sendThrows : TipRow → bool) (st : State) : State * list Effect :=
  if isSendingTips st || negb (steamReady st) then (st, [])
  else
    let rows := fetchPendingTips (db st) in
    let '(db', log) := sendRows E client sendThrows rows (db st) in
    (mkState false (steamReady st) db', log).

(** [sendDownloadMessage]: one send if the user can be messaged; a
    throwing send is caught and logged.  The text is given without its
    leading check-mark sign. *)
Definition sendDownloadMessage (E : EFriendRelationship) (client : Client)
           (sendThrows : bool) (steamId : string) (matchId : Z) : list Effect :=
  if negb (canMessageUser E client steamId) then []
  else [ESend steamId
              ("Your match " +:+ pretty matchId
               +:+ " has been downloaded and is ready for stats!") sendThrows].

(** steam-user's numbering of the three relationships. *)
Definition steam_user_relationships : EFriendRelationship :=
  mkRelationships 0 1 5.

(** Two analysed jobs with a tip to send: job 3 of a user who has blocked
    the bot (relationship 1), job 4 of a friend (relationship 3). *)
Definition blocked_job : Job :=
  mkJob 3 "CSGO-three" "76561198000000003" processed None (Some "Use cover.") None.

Definition friend_job : Job :=
  mkJob 4 "CSGO-four" "76561198000000004" parsed None (Some "Hold the corner.")
        (Some false).

Definition sample_client : Client :=
  mkClient (Some {[ "76561198000000003" := 1; "76561198000000004" := 3 ]}) None.

Definition sample_state : State := mkState false true [blocked_job; friend_job].

End Notifier.

(** ** The download cycle: [processPending] *)

Module Orchestrator.
Import JobStore Errors.

Record Config := mkConfig {
  RETRY_COOLDOWN_MS : Z;
  downloadsDir : string
}.

(** The defaults of the script, for a working directory [/srv/retake]. *)
Definition default_config : Config := mkConfig 300000 "/srv/retake/downloads".

(** The globals the cycle reads and writes, and the table. *)
Record State := mkState {
  isProcessing : bool;
  gcReady : bool;
  retryAfterByMatchId : gmap Z Z;
  db : list Job
}.

(** What the outside world answers during one cycle. *)
Record Cycle := mkCycle {
  locked : list Z;                          (* rows locked by other claims *)
  nowAtCheck : Z;                           (* [Date.now()] in the cooldown test *)
  nowAtFailure : Z;                         (* [Date.now()] in the catch block *)
  matchResult : string → Js.value + thrown; (* [await requestMatch(shareCode)] *)
  mkdirResult : option thrown;              (* [await ensureDownloadsDir()] *)
  net : string → nat → Download.FetchResult;(* the fetches of a URL *)
  relationships : Notifier.EFriendRelationship;
  client : Notifier.Client;
  sendThrows : bool
}.

Inductive Effect :=
| ERequestMatch (shareCode : string)
| EDownload (url outputFile : string) (effects : list Download.Effect)
| EMessage (e : Notifier.Effect).

(** How the [try] block ends once a row is claimed: with a new table, or
    with a thrown value for the [catch] block. *)
Inductive Body :=
| Completed (t : list Job)
| Failed (e : thrown).

(** [retryAfter && Date.now() < retryAfter] *)
Definition coolingDown (st : State) (cy : Cycle) (row : Row) : bool :=
  match retryAfterByMatchId st !! row_id row with
  | Some retryAfter => negb (retryAfter =? 0) && (nowAtCheck cy <? retryAfter)
  | None => false
  end.

Definition outputFileOf (cfg : Config) (row : Row) : string :=
  downloadsDir cfg +:+ "/match_" +:+ pretty (row_id row) +:+ ".dem".

(** The [try] block after [currentRow = row]; [t] is the table left by the
    claim. *)
Definition tryBody (cfg : Config) (cy : Cycle) (st : State) (row : Row)
           (t : list Job) : Body * list Effect :=
  if coolingDown st cy row then (Completed (markPending (row_id row) t), [])
  else
    let shareCode := row_share_code row in
    match matchResult cy shareCode with
    | inr e => (Failed e, [ERequestMatch shareCode])
    | inl matchList =>
        let replayUrl := Resolver.findReplayUrl matchList in
        if negb (Js.truthy replayUrl)
        then (Completed (markPending (row_id row) t), [ERequestMatch shareCode])
        else
          match mkdirResult cy with
          | Some e => (Failed e, [ERequestMatch shareCode])
          | None =>
              let url := Js.to_string replayUrl in
              let outputFile := outputFileOf cfg row in
              let '(outcome, effects) := Download.downloadReplay (net cy url) in
              let log := [ERequestMatch shareCode; EDownload url outputFile effects] in
              match outcome with
              | Download.Threw e => (Failed e, log)
              | Download.Returned =>
                  (Completed (markDownloaded (row_id row) outputFile t),
                   log ++ (EMessage <$>
                             Notifier.sendDownloadMessage
                               (relationships cy) (client cy) (sendThrows cy)
                               (user_steam_id row) (row_id row)))
              end
          end
    end.

Definition marker502 : string := "Replay download failed: 502".

(** The [catch] block, for a claimed row. *)
Definition onFailure (cfg : Config) (cy : Cycle) (row : Row) (thrownValue : thrown)
           (retryAfter : gmap Z Z) (t : list Job) : gmap Z Z * list Job :=
  let message := message_of thrownValue in
  if Js.includes marker502 message
  then (<[row_id row := nowAtFailure cy + RETRY_COOLDOWN_MS cfg]> retryAfter,
        markPending (row_id row) t)
  else (retryAfter, markError (row_id row) t).

Definition processPending (cfg : Config) (cy : Cycle) (st : State)
  : State * list Effect :=
  if isProcessing st || negb (gcReady st) then (st, [])
  else
    match getPendingMatch (locked cy) (db st) with
    | (None, t) => (mkState false (gcReady st) (retryAfterByMatchId st) t, [])
    | (Some row, t) =>
        match tryBody cfg cy st row t with
        | (Completed t', log) =>
            (mkState false (gcReady st) (retryAfterByMatchId st) t', log)
        | (Failed thrownValue, log) =>
            let '(retryAfter, t') :=
              onFailure cfg cy row thrownValue (retryAfterByMatchId st) t in
            (mkState false (gcReady st) retryAfter t', log)
        end
    end.

(** The status of the row with key [i], if there is one. *)
Definition statusOf (i : Z) (t : list Job) : option Status :=
  status <$> List.find (λ j, bool_decide (id j = i)) t.

(** One queued job and a coordinator that answers with [sample_response]. *)
Definition one_job_state : State :=
  mkState false true ∅ [new_job 7 "CSGO-share" "76561198000000001"].

Definition cycle_with (answer : Js.value + thrown)
           (fetch : nat → Download.FetchResult) : Cycle :=
  mkCycle [] 1000 2000 (λ _, answer) None (λ _, fetch)
          Notifier.steam_user_relationships (Notifier.mkClient (Some ∅) None)
          false.

End Orchestrator.

(** ** Vocabulary for the properties of the job store *)

Module StoreOps.
Import JobStore.

(** The operations the script itself performs: everything but the
    insertion done by the web application. *)
Definition script_op (o : Op) : Prop :=
  match o with
  | OpInsert _ _ _ => False
  | _ => True
  end.

(** The columns no statement of the script writes: every column of a job
    but [status], [file_path] and [tip_sent]. *)
Definition identity_of (j : Job) : Z * string * string * option string :=
  (id j, user_id j, share_code j, coach_tip j).

(** The four single-row transitions, [markDownloaded] with a given path. *)
Definition transitions (filePath : string) : list (Z → list Job → list Job) :=
  [markError; markPending; (λ i, markDownloaded i filePath); markTipSent].

(** Three users' rows, two of them claimable. *)
Definition three_user_table : list Job :=
  [ new_job 4 "CSGO-a" "76561198000000001";
    new_job 9 "CSGO-b" "76561198000000002";
    with_status downloaded (new_job 11 "CSGO-c" "76561198000000003") ].

End StoreOps.

(** ** Vocabulary for the properties of the resolver *)

Module SearchSpec.
Import Js.

(** A node from which the search can reach a marked string: the node is
    truthy and not deeper than [maxDepth], and it is a string containing
    [.dem.bz2] or an array or object with such a node one level down. *)
Fixpoint findable (maxDepth depth : nat) (node : value) : bool :=
  truthy node && (depth <=? maxDepth)%nat
  && match node with
     | VStr s => includes ".dem.bz2" s
     | VArr items => existsb (findable maxDepth (S depth)) items
     | VObj fields => existsb (λ f, findable maxDepth (S depth) f.2) fields
     | _ => false
     end.

(** [v] inside [n] nested one-element arrays. *)
Fixpoint wrap (n : nat) (v : value) : value :=
  match n with
  | O => v
  | S n' => VArr [wrap n' v]
  end.

(** [n] zeros. *)
Fixpoint zeros (n : nat) : string :=
  match n with
  | O => ""
  | S n' => "0" +:+ zeros n'
  end.

End SearchSpec.

(** ** Vocabulary for the properties of the download *)

Module DownloadSpec.
Import Errors Download.

(** What an attempt fails with; [None] for an attempt that writes the whole
    file. *)
Definition attemptError (fetched : FetchResult) : option thrown :=
  match fetched with
  | FetchThrows e => Some e
  | FetchResponse response =>
      match ok response, resp_body response with
      | true, Some PipelineDone => None
      | true, Some (PipelineThrows e) => Some e
      | _, _ => Some (statusError (resp_status response))
      end
  end.

(** The time spent waiting between attempts, in milliseconds. *)
Definition totalWait (effects : list Effect) : Z :=
  foldr Z.add 0 (sleeps effects).

(** A stream that breaks ("terminated") on attempts 1 and 2, then a good
    response. *)
Definition broken_stream : FetchResult :=
  FetchResponse
    (mkResponse 200 (Some (PipelineThrows
                             (Thrown (mkError "TypeError" (Some "terminated") None))))).

Definition two_broken_then_ok (attempt : nat) : FetchResult :=
  if (attempt <=? 2)%nat then broken_stream else good_response.

End DownloadSpec.

(** ** Sample cycles *)

Module CycleSamples.
Import JobStore Errors Orchestrator.

(** Job 7 with a cooldown deadline at time 302000. *)
Definition cooling_state : State :=
  mkState false true {[ 7 := 302000 ]}
          [new_job 7 "CSGO-share" "76561198000000001"].

Definition row7 : Row :=
  mkRow 7 "CSGO-share" "76561198000000001" "76561198000000001".

Definition claimed7 : list Job :=
  [with_status processing (new_job 7 "CSGO-share" "76561198000000001")].

(** An answer of the coordinator that holds no URL. *)
Definition empty_answer : Js.value := Js.VObj [].

(** A cycle like [cycle_with], with given clock readings. *)
Definition cycle_at (check failure : Z) (answer : Js.value + thrown)
           (fetch : nat → Download.FetchResult) : Cycle :=
  mkCycle [] check failure (λ _, answer) None (λ _, fetch)
          Notifier.steam_user_relationships (Notifier.mkClient (Some ∅) None)
          false.

End CycleSamples.

(** ** Runs of the coordinator client *)

Module CoordinatorRuns.
Import Errors Coordinator.

(** What can happen to the emitter and the timers: a call of
    [requestMatch], a ["matchList"] event, the passing of time. *)
Inductive Event :=
| Request (send : option thrown)
| MatchList (matchList : Js.value)
| Elapse (ms : Z).

Definition step (w : World) (e : Event) : World :=
  match e with
  | Request send => (requestMatch send w).2
  | MatchList matchList => emitMatchList matchList w
  | Elapse ms => elapse ms w
  end.

(** The world after a sequence of events, from the fresh process. *)
Definition after (events : list Event) : World := foldl step start events.

(** Call numbers in use are below the next call number. *)
Definition numbered (w : World) : Prop :=
  (∀ l, l ∈ listeners w → (l < calls w)%nat)
  ∧ (∀ t, t ∈ timers w → (t.1 < calls w)%nat).

End CoordinatorRuns.

(** ** Vocabulary for the properties of the tip batch *)

Module NotifierSpec.
Import JobStore Notifier.

(** The rows of a batch whose tip is sent without a throw. *)
Definition delivered (E : EFriendRelationship) (client : Client)
           (sendThrows : TipRow → bool) (rows : list TipRow) : list TipRow :=
  filter (λ row, canMessageUser E client (tip_steam_id row) = true
                 ∧ sendThrows row = false) rows.

(** What one row adds to the log. *)
Definition entries (E : EFriendRelationship) (client : Client)
           (sendThrows : TipRow → bool) (row : TipRow) : list Effect :=
  if canMessageUser E client (tip_steam_id row)
  then if sendThrows row
       then [ESend (tip_steam_id row) (tip_text row) true]
       else [ESend (tip_steam_id row) (tip_text row) false;
             EMarkTipSent (tip_id row)]
  else [].

(** The row written by [markTipSent]. *)
Definition sent (j : Job) : Job :=
  mkJob (id j) (share_code j) (user_id j) notified
        (file_path j) (coach_tip j) (Some true).

(** A client on which every send to the friend of [sample_client] throws. *)
Definition always_throws (row : TipRow) : bool := true.

End NotifierSpec.

(** * The pollers and the event handlers *)

Module Lifecycle.

Inductive Task := ProcessPending | SendPendingMessages.

#[global] Instance Task_eq_dec : EqDecision Task.
Proof. solve_decision. Defined.

(** What a handler does to the outside: the calls on the Steam client, the
    intervals it installs and the cycles it starts. *)
Inductive Action :=
| ASetPersonaOnline                      (* client.setPersona(Online) *)
| AGamesPlayed (appId : Z)               (* client.gamesPlayed(APP_ID_CS2) *)
| AAddFriend (steamId : string)          (* client.addFriend(steamId) *)
| ASetInterval (task : Task) (ms : Z)    (* setInterval(() => task(), ms) *)
| ACall (task : Task).                   (* task() *)

#[global] Instance Action_eq_dec : EqDecision Action.
Proof. solve_decision. Defined.

(** The globals the handlers and the two starters read and write. *)
Record Flags := mkFlags {
  steamReady : bool;
  gcReady : bool;
  friendsReady : bool;
  downloadPollerStarted : bool;
  messagePollerStarted : bool
}.

Definition initial : Flags := mkFlags false false false false false.

Definition POLL_INTERVAL_MS : Z := 30000.
Definition APP_ID_CS2 : Z := 730.

Definition startDownloadPolling (f : Flags) : Flags * list Action :=
  if downloadPollerStarted f then (f, [])
  else (mkFlags (steamReady f) (gcReady f) (friendsReady f) true
                (messagePollerStarted f),
        [ASetInterval ProcessPending POLL_INTERVAL_MS; ACall ProcessPending]).

Definition startMessagePolling (f : Flags) : Flags * list Action :=
  if messagePollerStarted f || negb (friendsReady f) then (f, [])
  else (mkFlags (steamReady f) (gcReady f) (friendsReady f)
                (downloadPollerStarted f) true,
        [ASetInterval SendPendingMessages POLL_INTERVAL_MS;
         ACall SendPendingMessages]).

(** The events of the Steam client and of the game coordinator that the
    script listens to. *)
Inductive Event :=
| LoggedOn
| FriendRelationship (steamId : string) (relationship : Z)
| FriendsList
| ClientError
| ConnectedToGC
| DisconnectedFromGC.

#[global] Instance Event_eq_dec : EqDecision Event.
Proof. solve_decision. Defined.

(** The handler of one event; [requestRecipient] is the value of
    [SteamUser.EFriendRelationship.RequestRecipient]. *)
Definition handle (requestRecipient : Z) (ev : Event) (f : Flags)
  : Flags * list Action :=
  match ev with
  | LoggedOn =>
      (mkFlags true (gcReady f) (friendsReady f) (downloadPollerStarted f)
               (messagePollerStarted f),
       [ASetPersonaOnline; AGamesPlayed APP_ID_CS2])
  | FriendRelationship steamId relationship =>
      (f, if decide (relationship = requestRecipient)
          then [AAddFriend steamId] else [])
  | FriendsList =>
      startMessagePolling
        (mkFlags (steamReady f) (gcReady f) true (downloadPollerStarted f)
                 (messagePollerStarted f))
  | ClientError =>
      (mkFlags false (gcReady f) (friendsReady f) (downloadPollerStarted f)
               (messagePollerStarted f), [])
  | ConnectedToGC =>
      startDownloadPolling
        (mkFlags (steamReady f) true (friendsReady f) (downloadPollerStarted f)
                 (messagePollerStarted f))
  | DisconnectedFromGC =>
      (mkFlags (steamReady f) false (friendsReady f) (downloadPollerStarted f)
               (messagePollerStarted f), [])
  end.

(** The handlers of a sequence of events, one after the other. *)
Fixpoint run (requestRecipient : Z) (evs : list Event) (f : Flags)
  : Flags * list Action :=
  match evs with
  | [] => (f, [])
  | ev :: rest =>
      let '(f1, log1) := handle requestRecipient ev f in
      let '(f2, log2) := run requestRecipient rest f1 in
      (f2, log1 ++ log2)
  end.

(** How often an action occurs in a log. *)
Definition occurrences (a : Action) (log : list Action) : nat :=
  length (filter (a =.) log).

(** The accounts of the [addFriend] calls of a log. *)
Definition added (log : list Action) : list string :=
  omap (λ a, match a with AAddFriend steamId => Some steamId | _ => None end) log.

(** The accounts whose friend request arrives in a sequence of events. *)
Definition requests (requestRecipient : Z) (evs : list Event) : list string :=
  omap (λ ev, match ev with
              | FriendRelationship steamId relationship =>
                  if decide (relationship = requestRecipient)
                  then Some steamId else None
              | _ => None
              end) evs.

(** The last readiness event of a sequence: [Some true] for the event that
    sets the flag, [Some false] for the one that clears it. *)
Definition lastOf (up down : Event) (evs : list Event) : option bool :=
  foldl (λ acc ev, if decide (ev = up) then Some true
                   else if decide (ev = down) then Some false else acc)
        None evs.

End Lifecycle.


(** * A download that does not end *)

(** The request timeout is cleared as soon as the response has arrived
    (line 288), so nothing bounds [await pipeline(...)]: a body whose
    stream neither ends nor fails leaves that promise pending for ever,
    and with it the call of [downloadReplay] and the cycle that awaits it.
    [Download] and [Orchestrator] describe the calls that end; here the
    same loop and the same cycle are given with that case added. *)
Module Stall.
Import JobStore Errors Orchestrator.

(** [response.ok && response.body]: the attempt gets to the pipeline. *)
Definition piped (fetched : Download.FetchResult) : bool :=
  match fetched with
  | Download.FetchThrows _ => false
  | Download.FetchResponse response =>
      Download.ok response
      && bool_decide (is_Some (Download.resp_body response))
  end.

(** How the call ends, if it does. *)
Inductive Outcome :=
| Ended (outcome : Download.Outcome)
| Pending.

(** The loop of [downloadReplay]; [stalls k] tells whether the pipeline of
    attempt [k], once started, never settles.  Such an attempt has fetched
    and opened the output file, and nothing comes after it. *)
Fixpoint attempts (remaining attempt : nat) (net : nat → Download.FetchResult)
         (stalls : nat → bool) : Outcome * list Download.Effect :=
  match remaining with
  | O => (Ended Download.Returned, [])
  | S remaining' =>
      if piped (net attempt) && stalls attempt
      then (Pending, [Download.EFetch attempt; Download.EWrite attempt])
      else
        let '(step, effects) := Download.loopBody attempt (net attempt) in
        match step with
        | Download.Return => (Ended Download.Returned, effects)
        | Download.Throw e => (Ended (Download.Threw e), effects)
        | Download.Continue =>
            let '(outcome, later) := attempts remaining' (S attempt) net stalls in
            (outcome, effects ++ later)
        end
  end.

Definition downloadReplay (net : nat → Download.FetchResult)
           (stalls : nat → bool) : Outcome * list Download.Effect :=
  attempts Download.maxAttempts 1 net stalls.

(** How the [try] block ends, if it does. *)
Inductive Body :=
| Finished (body : Orchestrator.Body)
| Unfinished.

(** The [try] block after [currentRow = row]. *)
Definition tryBody (cfg : Config) (cy : Cycle) (stalls : nat → bool)
           (st : State) (row : Row) (t : list Job) : Body * list Effect :=
  if coolingDown st cy row
  then (Finished (Completed (markPending (row_id row) t)), [])
  else
    let shareCode := row_share_code row in
    match matchResult cy shareCode with
    | inr e => (Finished (Failed e), [ERequestMatch shareCode])
    | inl matchList =>
        let replayUrl := Resolver.findReplayUrl matchList in
        if negb (Js.truthy replayUrl)
        then (Finished (Completed (markPending (row_id row) t)),
              [ERequestMatch shareCode])
        else
          match mkdirResult cy with
          | Some e => (Finished (Failed e), [ERequestMatch shareCode])
          | None =>
              let url := Js.to_string replayUrl in
              let outputFile := outputFileOf cfg row in
              let '(outcome, effects) := downloadReplay (net cy url) stalls in
              let log := [ERequestMatch shareCode; EDownload url outputFile effects] in
              match outcome with
              | Pending => (Unfinished, log)
              | Ended (Download.Threw e) => (Finished (Failed e), log)
              | Ended Download.Returned =>
                  (Finished (Completed (markDownloaded (row_id row) outputFile t)),
                   log ++ (EMessage <$>
                             Notifier.sendDownloadMessage
                               (relationships cy) (client cy) (sendThrows cy)
                               (user_steam_id row) (row_id row)))
              end
          end
    end.

(** One call of [processPending], and the globals and the table as every
    later call finds them.  When the [try] block does not end, neither
    [catch] nor [finally] runs: [isProcessing] stays [true] and the table
    is the one the claim committed. *)
Definition processPending (cfg : Config) (cy : Cycle) (stalls : nat → bool)
           (st : State) : State * list Effect :=
  if isProcessing st || negb (gcReady st) then (st, [])
  else
    match getPendingMatch (locked cy) (db st) with
    | (None, t) => (mkState false (gcReady st) (retryAfterByMatchId st) t, [])
    | (Some row, t) =>
        match tryBody cfg cy stalls st row t with
        | (Finished (Completed t'), log) =>
            (mkState false (gcReady st) (retryAfterByMatchId st) t', log)
        | (Finished (Failed thrownValue), log) =>
            let '(retryAfter, t') :=
              onFailure cfg cy row thrownValue (retryAfterByMatchId st) t in
            (mkState false (gcReady st) retryAfter t', log)
        | (Unfinished, log) =>
            (mkState true (gcReady st) (retryAfterByMatchId st) t, log)
        end
    end.


End Stall.


(** * Properties *)

(** Closed decidable facts about concrete tables are settled by evaluation. *)
Ltac decide_by_computation :=
  apply (bool_decide_unpack _); vm_compute; exact I.

Section JobStoreFacts.
Import JobStore.

Lemma max_id_of_user_Some t u m :
  max_id_of_user t u = Some m ↔
  (∃ j, j ∈ t ∧ user_id j = u ∧ id j = m)
  ∧ (∀ k, k ∈ t → user_id k = u → id k ≤ m).
Proof.
  revert m. induction t as [|a t IH]; intros m; simpl.
  - split; [done|]. intros [(j & Hj & _) _]. by apply elem_of_nil in Hj.
  - destruct (decide (user_id a = u)) as [Ha|Ha].
    + destruct (max_id_of_user t u) as [m'|] eqn:E.
      * destruct (proj1 (IH m') eq_refl) as [(j & Hj & Hu & Hm) Hle].
        split.
        -- intros [= <-]. split.
           ++ destruct (Z.max_spec (id a) m') as [[_ ->]|[_ ->]].
              ** exists j. by rewrite elem_of_cons; auto.
              ** exists a. by rewrite elem_of_cons; auto.
           ++ intros k [->|Hk]%elem_of_cons Hku; [lia|].
              specialize (Hle k Hk Hku). lia.
        -- intros [(j' & Hj' & Hu' & Hm') Hle']. f_equal.
           assert (id a ≤ m) by (apply Hle'; [apply elem_of_cons; auto|done]).
           assert (m' ≤ m).
           { rewrite <- Hm. apply Hle'; [apply elem_of_cons; auto|done]. }
           apply elem_of_cons in Hj' as [->|Hj']; [lia|].
           specialize (Hle j' Hj' Hu'). lia.
      * assert (Hnone : ∀ k, k ∈ t → user_id k ≠ u).
        { intros k Hk Hku.
          assert (Hex : ∃ m0, max_id_of_user t u = Some m0); [|destruct Hex; congruence].
          clear IH E. induction t as [|b t IHt]; [by apply elem_of_nil in Hk|].
          simpl. destruct (decide (user_id b = u)); [eauto|].
          apply elem_of_cons in Hk as [->|Hk]; [done|]. by apply IHt. }
        split.
        -- intros [= <-]. split.
           ++ exists a. by rewrite elem_of_cons; auto.
           ++ intros k [->|Hk]%elem_of_cons Hku; [lia|]. by destruct (Hnone k Hk).
        -- intros [(j' & Hj' & Hu' & Hm') _]. f_equal.
           apply elem_of_cons in Hj' as [->|Hj']; [done|]. by destruct (Hnone j' Hj').
    + rewrite IH. split.
      * intros [(j & Hj & Hu & Hm) Hle]. split.
        -- exists j. by rewrite elem_of_cons; auto.
        -- intros k [->|Hk]%elem_of_cons Hku; [done|]. by apply Hle.
      * intros [(j & Hj & Hu & Hm) Hle]. split.
        -- exists j. apply elem_of_cons in Hj as [->|Hj]; [done|]. auto.
        -- intros k Hk Hku. apply Hle; [apply elem_of_cons; auto|done].
Qed.

(** The gate of the query, read on the table. *)
Lemma eligible_iff t j :
  j ∈ t → eligible t j ↔ status j = pending ∧ newest_of_user t j.
Proof.
  intros Hj. unfold eligible, newest_of_user. rewrite max_id_of_user_Some.
  split.
  - intros (Hs & _ & Hle). split; [done|]. intros k Hk Hu. by apply Hle.
  - intros (Hs & Hle). split; [done|]. split; [by exists j|].
    intros k Hk Hu. by apply Hle.
Qed.

Lemma highest_None rows : highest rows = None ↔ rows = [].
Proof.
  destruct rows as [|a rows]; [done|]. simpl.
  split; [|done]. destruct (highest rows); [case_decide|]; done.
Qed.

Lemma highest_Some rows j :
  highest rows = Some j → j ∈ rows ∧ ∀ k, k ∈ rows → id k ≤ id j.
Proof.
  revert j. induction rows as [|a rows IH]; intros j; [done|]. simpl.
  destruct (highest rows) as [k|] eqn:E.
  - destruct (IH k eq_refl) as [Hk Hle]. case_decide; intros [= <-].
    + split; [apply elem_of_cons; auto|].
      intros x [->|Hx]%elem_of_cons; [lia|]. specialize (Hle x Hx). lia.
    + split; [apply elem_of_cons; auto|].
      intros x [->|Hx]%elem_of_cons; [lia|]. by apply Hle.
  - intros [= <-]. apply highest_None in E as ->.
    split; [apply elem_of_cons; auto|].
    intros x [->|Hx]%elem_of_cons; [lia|]. by apply elem_of_nil in Hx.
Qed.

Lemma elem_of_claimable locked t j :
  j ∈ claimable locked t ↔ j ∈ t ∧ eligible t j ∧ id j ∉ locked.
Proof. unfold claimable. rewrite list_elem_of_filter. tauto. Qed.

Lemma elem_of_update_where_id f i t j :
  j ∈ update_where_id f i t ↔
  ∃ k, k ∈ t ∧ j = (if decide (id k = i) then f k else k).
Proof.
  unfold update_where_id. rewrite list_elem_of_fmap.
  split; intros (k & H1 & H2); exists k; done.
Qed.

Lemma update_where_id_other f i t j :
  j ∈ t → id j ≠ i → j ∈ update_where_id f i t.
Proof.
  intros Hj Hne. apply elem_of_update_where_id. exists j.
  by rewrite decide_False.
Qed.

Lemma update_where_id_hit f i t j :
  j ∈ t → id j = i → f j ∈ update_where_id f i t.
Proof.
  intros Hj He. apply elem_of_update_where_id. exists j.
  by rewrite decide_True.
Qed.

Lemma id_inj_on t j k :
  NoDup (id <$> t) → j ∈ t → k ∈ t → id j = id k → j = k.
Proof.
  induction t as [|a t IH]; [by intros _ ?%elem_of_nil|].
  rewrite fmap_cons, NoDup_cons. intros [Hn Hd] Hj Hk He.
  apply elem_of_cons in Hj as [->|Hj], Hk as [->|Hk]; auto.
  - destruct Hn. rewrite He. by apply list_elem_of_fmap_2.
  - destruct Hn. rewrite <- He. by apply list_elem_of_fmap_2.
Qed.

Lemma update_where_id_ids f i t :
  (∀ j, id (f j) = id j) → (id <$> update_where_id f i t) = (id <$> t).
Proof.
  intros Hf. unfold update_where_id. rewrite <- list_fmap_compose.
  apply list_fmap_ext. intros n j _. simpl. by case_decide.
Qed.


(** What the claiming transaction returns and what it does to the table. *)
Lemma getPendingMatch_Some locked t r t' :
  getPendingMatch locked t = (Some r, t') →
  ∃ j, j ∈ t ∧ r = row_of j ∧ eligible t j ∧ (id j ∉ locked)
       ∧ (∀ k, k ∈ t → eligible t k → id k ∉ locked → id k ≤ id j)
       ∧ t' = update_where_id (with_status processing) (id j) t.
Proof.
  unfold getPendingMatch. destruct (highest _) as [j|] eqn:E; [|done].
  intros [= <- <-]. apply highest_Some in E as [Hj Hmax].
  apply elem_of_claimable in Hj as (Hj & He & Hl).
  exists j. split_and!; try done.
  intros k Hk Hek Hlk. apply Hmax. by apply elem_of_claimable.
Qed.

Lemma getPendingMatch_None locked t t' :
  getPendingMatch locked t = (None, t') →
  t' = t ∧ ∀ k, k ∈ t → eligible t k → id k ∈ locked.
Proof.
  unfold getPendingMatch. destruct (highest _) as [j|] eqn:E; [done|].
  intros [= <-]. split; [done|]. apply highest_None in E.
  intros k Hk Hek. destruct (decide (id k ∈ locked)) as [|Hn]; [done|].
  assert (k ∈ claimable locked t) as Hc by by apply elem_of_claimable.
  rewrite E in Hc. by apply elem_of_nil in Hc.
Qed.





End JobStoreFacts.

(** ** Claims about the job store *)

Section JobStoreClaims.
Import JobStore.

(** C1, counterexample.  User 76561198000000001 has the pending rows 10
    and 12.  Once row 12 has left [pending], for any of the six other
    statuses, row 10 is the highest-id pending row of the user and is still
    not selected: the query's gate is false for it and the claiming
    transaction returns no row. *)
Lemma parked_job_is_not_claimable_after_newer_leaves_pending :
  Forall (λ s,
            let t' := update_where_id (with_status s) 12 parked_table in
            let older := new_job 10 "CSGO-older" "76561198000000001" in
            highest_pending_of_user t' older
            ∧ ¬ eligible t' older
            ∧ getPendingMatch [] t' = (None, t'))
         [processing; downloaded; error; processed; parsed; notified].
Proof.
  repeat apply Forall_cons_2; try apply Forall_nil_2; simpl;
    (split; [|split;
              [intros [_ Hmax]; vm_compute in Hmax; discriminate|reflexivity]]);
    (split; [apply elem_of_cons; auto|split; [done|]]);
    intros k Hk _ Hs;
    repeat (apply elem_of_cons in Hk as [->|Hk]); try done;
    by apply elem_of_nil in Hk.
Qed.

(** C1, amended.  A pending row passes the gate of the claiming query
    exactly when no row of the same user, of any status, has a higher id.
    While a newer row of the user exists, whatever status it is moved to,
    the older pending row stays in the table untouched, is not eligible
    and is not the row the claim returns. *)
Theorem parked_job_claimable_iff_newest locked t j :
  NoDup (id <$> t) → j ∈ t → status j = pending →
  (eligible t j ↔ newest_of_user t j)
  ∧ (∀ k s, k ∈ t → user_id k = user_id j → id j < id k →
       let t' := update_where_id (with_status s) (id k) t in
       j ∈ t' ∧ ¬ eligible t' j
       ∧ (getPendingMatch locked t').1 ≠ Some (row_of j)
       ∧ j ∈ (getPendingMatch locked t').2).
Proof.
  intros Hnd Hj Hs. split.
  { rewrite eligible_iff by done. tauto. }
  intros k s Hk Hu Hlt t'.
  assert (Hj' : j ∈ t') by (apply update_where_id_other; [done|lia]).
  assert (Hk' : with_status s k ∈ t') by by apply update_where_id_hit.
  assert (Hnd' : NoDup (id <$> t')).
  { unfold t'. by rewrite update_where_id_ids. }
  assert (Hne : ¬ eligible t' j).
  { rewrite eligible_iff by done. intros [_ Hn].
    specialize (Hn _ Hk' Hu). simpl in Hn. lia. }
  split_and!; [done|done| |].
  - destruct (getPendingMatch locked t') as [[r|] t''] eqn:E; [|done].
    apply getPendingMatch_Some in E as (w & Hw & -> & He & _). simpl.
    intros [= Hi _ _]. apply Hne.
    by rewrite <- (id_inj_on t' w j Hnd' Hw Hj' Hi).
  - destruct (getPendingMatch locked t') as [[r|] t''] eqn:E; simpl.
    + apply getPendingMatch_Some in E as (w & Hw & -> & He & _ & _ & ->).
      apply update_where_id_other; [done|]. intros Hi. apply Hne.
      by rewrite (id_inj_on t' j w Hnd' Hj' Hw Hi).
    + by apply getPendingMatch_None in E as [-> _].
Qed.

Lemma parked_job_claimable_iff_newest_witness :
  let older := new_job 10 "CSGO-older" "76561198000000001" in
  let t' := update_where_id (with_status error) 12 parked_table in
  older ∈ t' ∧ ¬ eligible t' older
  ∧ (getPendingMatch [] t').1 ≠ Some (row_of older)
  ∧ older ∈ (getPendingMatch [] t').2.
Proof.
  refine (proj2 (parked_job_claimable_iff_newest
                   [] parked_table
                   (new_job 10 "CSGO-older" "76561198000000001") _ _ _)
                (new_job 12 "CSGO-newer" "76561198000000001") error _ _ _).
  - decide_by_computation.
  - decide_by_computation.
  - reflexivity.
  - decide_by_computation.
  - reflexivity.
  - simpl. lia.
Defined.




(** C3, counterexample.  Row 10 is the only pending row of its user, hence
    that user's highest-id pending row, but the user also has row 12 in
    status [error]: the claiming transaction selects nothing. *)
Lemma no_claim_when_newer_job_is_not_pending :
  let user := "76561198000000001" in
  let older := new_job 10 "CSGO-older" user in
  let t := [older; with_status error (new_job 12 "CSGO-newer" user)] in
  highest_pending_of_user t older ∧ getPendingMatch [] t = (None, t).
Proof.
  simpl. split; [|reflexivity].
  split; [apply elem_of_cons; auto|split; [done|]].
  intros k Hk _ Hs.
  repeat (apply elem_of_cons in Hk as [->|Hk]); try done.
  by apply elem_of_nil in Hk.
Qed.

(** C3, amended.  The claiming transaction selects among the rows that are
    [pending], are the highest-id row of their user over all statuses (so
    in particular that user's highest-id pending row) and are not locked by
    a concurrent claim.  It returns the one with the highest id and sets
    exactly that row to [processing]; it returns no row and leaves the
    table as it is exactly when no such row exists.  For a user whose only
    rows are the pending rows 10 and 12 it returns row 12 and leaves row 10
    [pending]. *)
Theorem getPendingMatch_claims_newest_pending_row locked t :
  NoDup (id <$> t) →
  (∀ r t', getPendingMatch locked t = (Some r, t') →
     ∃ j, j ∈ t ∧ r = row_of j
          ∧ status j = pending ∧ newest_of_user t j
          ∧ highest_pending_of_user t j
          ∧ (id j ∉ locked)
          ∧ (∀ k, k ∈ t → status k = pending → newest_of_user t k →
                  id k ∉ locked → id k ≤ id j)
          ∧ t' = ((λ k, if decide (k = j) then with_status processing j else k)
                    <$> t))
  ∧ (∀ t', getPendingMatch locked t = (None, t') →
       t' = t
       ∧ ∀ k, k ∈ t → status k = pending → newest_of_user t k → id k ∈ locked)
  ∧ ((∃ k, k ∈ t ∧ status k = pending ∧ newest_of_user t k ∧ id k ∉ locked) →
       ∃ r t', getPendingMatch locked t = (Some r, t'))
  ∧ (∀ code10 code12 user,
       getPendingMatch [] [new_job 10 code10 user; new_job 12 code12 user]
       = (Some (mkRow 12 code12 user user),
          [new_job 10 code10 user;
           with_status processing (new_job 12 code12 user)])).
Proof.
  intros Hnd. split_and!.
  - intros r t' E.
    apply getPendingMatch_Some in E as (j & Hj & -> & He & Hl & Hmax & ->).
    pose proof (proj1 (eligible_iff t j Hj) He) as [Hs Hn].
    exists j. split_and!; try done.
    + split_and!; try done. intros k Hk Hu _. by apply Hn.
    + intros k Hk Hsk Hnk Hlk. apply Hmax; try done.
      by apply eligible_iff.
    + unfold update_where_id. apply list_fmap_ext. intros n k Hk.
      apply list_elem_of_lookup_2 in Hk.
      destruct (decide (id k = id j)) as [Hi|Hi].
      * rewrite (id_inj_on t k j Hnd Hk Hj Hi). by rewrite decide_True.
      * rewrite decide_False; [done|]. by intros ->.
  - intros t' E. apply getPendingMatch_None in E as [-> Hall].
    split; [done|]. intros k Hk Hs Hn. apply Hall; [done|].
    by apply eligible_iff.
  - intros (k & Hk & Hs & Hn & Hl).
    destruct (getPendingMatch locked t) as [[r|] t'] eqn:E; [by eauto|].
    apply getPendingMatch_None in E as [_ Hall].
    destruct Hl. apply Hall; [done|]. by apply eligible_iff.
  - intros code10 code12 user.
    set (t0 := [new_job 10 code10 user; new_job 12 code12 user]).
    assert (Hm : max_id_of_user t0 user = Some 12).
    { unfold max_id_of_user. simpl. by rewrite !decide_True. }
    assert (Hc : claimable [] t0 = [new_job 12 code12 user]).
    { unfold claimable, t0.
      rewrite filter_cons_False, filter_cons_True, filter_nil; [done| |].
      - split; [by split|apply not_elem_of_nil].
      - intros [[_ He] _]. fold t0 in He. change (user_id _) with user in He.
        rewrite Hm in He. by inversion He. }
    unfold getPendingMatch. rewrite Hc. simpl.
    reflexivity.
Qed.

Lemma getPendingMatch_claims_newest_pending_row_witness :
  ∃ r t', getPendingMatch [] parked_table = (Some r, t')
          ∧ row_id r = 12
          ∧ new_job 10 "CSGO-older" "76561198000000001" ∈ t'.
Proof.
  destruct (getPendingMatch_claims_newest_pending_row [] parked_table)
    as (_ & _ & Hsome & Hex); [decide_by_computation|].
  exists (mkRow 12 "CSGO-newer" "76561198000000001" "76561198000000001").
  eexists. split; [apply Hex|]. split; [reflexivity|].
  decide_by_computation.
Defined.

End JobStoreClaims.

(** ** Facts about the resolver *)

Section ResolverFacts.
Import Js Resolver.

Lemma size_pos v : (1 ≤ size v)%nat.
Proof. destruct v; simpl; lia. Qed.

Lemma size_VArr items :
  size (VArr items) = S (queue_size ((λ item, (item, O)) <$> items)).
Proof.
  simpl. f_equal. unfold queue_size.
  induction items as [|x items IH]; simpl; [done|]. by rewrite IH.
Qed.

Lemma size_VObj fields :
  size (VObj fields) = S (queue_size ((λ f, (f.2, O)) <$> fields)).
Proof.
  simpl. f_equal. unfold queue_size.
  induction fields as [|x fields IH]; simpl; [done|]. by rewrite IH.
Qed.

Lemma queue_size_cons e queue :
  queue_size (e :: queue) = (size e.1 + queue_size queue)%nat.
Proof. done. Qed.

Lemma queue_size_app q1 q2 :
  queue_size (q1 ++ q2) = (queue_size q1 + queue_size q2)%nat.
Proof.
  induction q1 as [|e q1 IH]; [done|].
  rewrite <- app_comm_cons, !queue_size_cons, IH. lia.
Qed.

Lemma queue_size_depth {A} (f : A → value) (d1 d2 : nat) (l : list A) :
  queue_size ((λ x, (f x, d1)) <$> l) = queue_size ((λ x, (f x, d2)) <$> l).
Proof.
  induction l as [|x l IH]; [done|].
  by rewrite !fmap_cons, !queue_size_cons, IH.
Qed.

(** Fuel beyond the number of queued nodes changes nothing: the loop has
    stopped by then. *)
Lemma search_fuel_irrelevant maxDepth f1 : ∀ f2 queue,
  (queue_size queue ≤ f1)%nat → (queue_size queue ≤ f2)%nat →
  search f1 maxDepth queue = search f2 maxDepth queue.
Proof.
  induction f1 as [|f1 IH]; intros f2 queue H1 H2.
  - destruct queue as [|[node depth] rest].
    + by destruct f2.
    + rewrite queue_size_cons in H1. pose proof (size_pos node). simpl in *. lia.
  - destruct f2 as [|f2].
    + destruct queue as [|[node depth] rest]; [done|].
      rewrite queue_size_cons in H2. pose proof (size_pos node). simpl in *. lia.
    + destruct queue as [|[node depth] rest]; [done|].
      rewrite queue_size_cons in H1, H2. pose proof (size_pos node) as Hp.
      cbn [fst] in H1, H2.
      assert (Hrest : search f1 maxDepth rest = search f2 maxDepth rest)
        by (apply IH; lia).
      cbn [search]. destruct (negb (truthy node) || (maxDepth <? depth)%nat);
        [done|].
      destruct node as [| | | |s|items|fields|]; try done.
      * by destruct (includes _ s).
      * apply IH; rewrite queue_size_app,
          (queue_size_depth (λ x, x) _ O); rewrite size_VArr in H1, H2; lia.
      * apply IH; rewrite queue_size_app,
          (queue_size_depth snd _ O); rewrite size_VObj in H1, H2; lia.
Qed.

(** [findReplayUrlInObject] is the loop run to its end. *)
Lemma findReplayUrlInObject_total v fuel :
  (size v ≤ fuel)%nat → search fuel 6 [(v, O)] = findReplayUrlInObject v.
Proof.
  intros H. unfold findReplayUrlInObject.
  apply search_fuel_irrelevant; unfold queue_size; simpl; lia.
Qed.

Lemma fill_length n pad cur :
  pad ≠ "" → String.length (fill n pad cur) = n.
Proof.
  intros Hp. revert cur. induction n as [|n IH]; intros cur; [done|].
  simpl. destruct cur; simpl.
  - destruct pad; [done|]. simpl. by rewrite IH.
  - by rewrite IH.
Qed.

Lemma string_app_length (a b : string) :
  String.length (a +:+ b) = (String.length a + String.length b)%nat.
Proof. induction a; simpl; [done|]. by rewrite IHa. Qed.

Lemma padStart_length s n pad :
  pad ≠ "" → String.length (padStart s n pad) = (n `max` String.length s)%nat.
Proof.
  intros Hp. unfold padStart. case_decide; [lia|].
  rewrite decide_False by done.
  rewrite string_app_length, fill_length by done. lia.
Qed.


(** A natural number below [10^k] prints in at most [k] digits. *)
Lemma pretty_N_go_length k : ∀ (x : N) (acc : string),
  (x < 10 ^ N.of_nat k)%N →
  (String.length (pretty_N_go x acc) ≤ k + String.length acc)%nat.
Proof.
  induction k as [|k IH]; intros x acc Hx.
  - assert (x = 0%N) as -> by (simpl in Hx; lia).
    rewrite pretty_N_go_0. lia.
  - destruct (decide (x = 0%N)) as [->|Hne].
    + rewrite pretty_N_go_0. lia.
    + rewrite pretty_N_go_step by lia.
      etrans; [apply IH|simpl; lia].
      rewrite Nat2N.inj_succ, N.pow_succ_r' in Hx.
      apply N.Div0.div_lt_upper_bound. lia.
Qed.

Lemma pretty_Z_length k (n : Z) :
  (1 ≤ k)%nat → 0 ≤ n < 10 ^ Z.of_nat k →
  (String.length (pretty n) ≤ k)%nat.
Proof.
  intros Hk [H0 Hn]. destruct n as [|p|p]; [simpl; lia| |lia].
  unfold pretty, pretty_Z, pretty, pretty_positive, pretty, pretty_N.
  rewrite decide_False by done.
  etrans; [apply pretty_N_go_length with (k := k)|simpl; lia].
  apply N2Z.inj_lt. rewrite N2Z.inj_pow, nat_N_Z. simpl. lia.
Qed.

End ResolverFacts.

(** ** Claims about the resolver *)

Section ResolverClaims.
Import Js Resolver.



(** C8, counterexample.  A reservation id given as a text of 22 digits is
    left as it is: the segment placed in the URL has 22 characters. *)
Lemma padded_reservation_of_22_digits :
  paddedReservation (VStr "1234567890123456789012") = "1234567890123456789012"
  ∧ String.length (paddedReservation (VStr "1234567890123456789012")) = 22%nat
  ∧ buildReplayUrl long_id_response
    = VStr "http://replay123.valve.net/730/1234567890123456789012_27015.dem.bz2".
Proof. by vm_compute. Qed.

(** C8, amended.  The padded segment has as many characters as the longer
    of 21 and the text of the reservation id: exactly 21 whenever that text
    has at most 21 characters, which covers every number from 0 up to
    10^21 - 1, and more than 21 otherwise, since nothing is cut off.  The
    id 42 pads to 000000000000000000042. *)
Theorem paddedReservation_length reservationId :
  String.length (paddedReservation reservationId)
  = (21 `max` String.length (to_string reservationId))%nat
  ∧ ((String.length (to_string reservationId) ≤ 21)%nat ↔
     String.length (paddedReservation reservationId) = 21%nat)
  ∧ (∀ n, 0 ≤ n < 10 ^ 21 →
          String.length (paddedReservation (VNum n)) = 21%nat)
  ∧ (∀ digits, (String.length digits ≤ 21)%nat →
               String.length (paddedReservation (VStr digits)) = 21%nat)
  ∧ paddedReservation (VNum 42) = "000000000000000000042".
Proof.
  assert (Hlen : ∀ v, String.length (paddedReservation v)
                      = (21 `max` String.length (to_string v))%nat).
  { intros v. unfold paddedReservation. by apply padStart_length. }
  split_and!; [done| | | |by vm_compute].
  - rewrite Hlen. lia.
  - intros n Hn. rewrite Hlen.
    pose proof (pretty_Z_length 21 n) as Hp. simpl to_string.
    change (Z.of_nat 21) with 21 in Hp. lia.
  - intros digits Hd. rewrite Hlen. simpl to_string. lia.
Qed.

Lemma paddedReservation_length_witness :
  String.length (paddedReservation (VNum 9007199254740991)) = 21%nat.
Proof.
  apply (proj1 (proj2 (proj2 (paddedReservation_length VNull)))
           9007199254740991).
  lia.
Defined.

End ResolverClaims.

(** ** Facts about the download loop *)

Section DownloadFacts.
Import Errors Download DownloadSpec.

Lemma loopBody_Continue attempt fetched :
  (loopBody attempt fetched).1 = Continue ↔
  (attempt < maxAttempts)%nat ∧ retryableFailure fetched = true.
Proof.
  rewrite <- Nat.ltb_lt.
  destruct fetched as [e|[status [[|e]|]]];
    unfold loopBody, outerCatch, retryableFailure; cbn [resp_body resp_status];
    repeat (match goal with
            | |- context [ok ?r] => destruct (ok r)
            | |- context [(?a <? ?b)%nat] => destruct (a <? b)%nat
            | |- context [isRetryableFetchError ?e] =>
                destruct (isRetryableFetchError e)
            | |- context [retryable ?s] => destruct (retryable s)
            end; cbn [andb fst]);
    split; try done; intros [? ?]; done.
Qed.

Lemma loopBody_fetches attempt fetched :
  fetches (loopBody attempt fetched).2 = [attempt].
Proof.
  destruct fetched as [e|[status [[|e]|]]];
    unfold loopBody, outerCatch; cbn [resp_body resp_status];
    repeat (match goal with
            | |- context [ok ?r] => destruct (ok r)
            | |- context [(?a <? ?b)%nat] => destruct (a <? b)%nat
            | |- context [isRetryableFetchError ?e] =>
                destruct (isRetryableFetchError e)
            | |- context [retryable ?s] => destruct (retryable s)
            end; cbn [andb]); done.
Qed.

Lemma loopBody_sleeps attempt fetched :
  sleeps (loopBody attempt fetched).2 =
  match (loopBody attempt fetched).1 with
  | Continue => [3000 * Z.of_nat attempt]
  | _ => []
  end.
Proof.
  destruct fetched as [e|[status [[|e]|]]];
    unfold loopBody, outerCatch; cbn [resp_body resp_status];
    repeat (match goal with
            | |- context [ok ?r] => destruct (ok r)
            | |- context [(?a <? ?b)%nat] => destruct (a <? b)%nat
            | |- context [isRetryableFetchError ?e] =>
                destruct (isRetryableFetchError e)
            | |- context [retryable ?s] => destruct (retryable s)
            end; cbn [andb]); done.
Qed.

Lemma fetches_app e1 e2 : fetches (e1 ++ e2) = fetches e1 ++ fetches e2.
Proof. apply omap_app. Qed.

Lemma sleeps_app e1 e2 : sleeps (e1 ++ e2) = sleeps e1 ++ sleeps e2.
Proof. apply omap_app. Qed.

Lemma attempts_S remaining attempt net :
  attempts (S remaining) attempt net =
  match loopBody attempt (net attempt) with
  | (Continue, effects) =>
      let '(outcome, later) := attempts remaining (S attempt) net in
      (outcome, effects ++ later)
  | (Return, effects) => (Returned, effects)
  | (Throw e, effects) => (Threw e, effects)
  end.
Proof. cbn [attempts]. by destruct (loopBody _ _) as [[]]. Qed.

(** A run entered at [attempt] makes the fetches [attempt], [attempt + 1],
    ... and waits 3000 ms times the attempt number after each fetch but the
    last. *)
Lemma attempts_shape net remaining : ∀ attempt,
  (remaining + attempt = maxAttempts + 1)%nat →
  ∃ n, (n ≤ remaining)%nat ∧ (remaining ≠ O → 1 ≤ n)%nat
       ∧ fetches (attempts remaining attempt net).2 = seq attempt n
       ∧ sleeps (attempts remaining attempt net).2
         = (λ k, 3000 * Z.of_nat k) <$> seq attempt (n - 1).
Proof.
  induction remaining as [|remaining IH]; intros attempt Hinv.
  - exists O. by repeat split.
  - cbn [attempts].
    pose proof (loopBody_fetches attempt (net attempt)) as Hf.
    pose proof (loopBody_sleeps attempt (net attempt)) as Hs.
    pose proof (loopBody_Continue attempt (net attempt)) as Hc.
    destruct (loopBody attempt (net attempt)) as [step effects].
    cbn [fst snd] in Hf, Hs, Hc. destruct step.
    + destruct (proj1 Hc eq_refl) as [Hlt _].
      destruct (IH (S attempt)) as (n & Hn & Hpos & Hfe & Hsl); [lia|].
      destruct (attempts remaining (S attempt) net) as [outcome later].
      cbn [snd] in *. exists (S n). split; [lia|]. split; [lia|].
      rewrite fetches_app, sleeps_app, Hf, Hs, Hfe, Hsl.
      split; [done|]. destruct n as [|n]; [lia|].
      by rewrite !Nat.sub_succ, !Nat.sub_0_r.
    + exists 1%nat. cbn [snd]. rewrite Hf, Hs. repeat split; try done; lia.
    + exists 1%nat. cbn [snd]. rewrite Hf, Hs. repeat split; try done; lia.
Qed.

(** If every attempt before the last fails in a retryable way and the last
    one answers with a status that is not a good response, the call throws
    the error carrying that status. *)
Lemma attempts_exhausted net status body remaining : ∀ attempt,
  (remaining + attempt = maxAttempts)%nat →
  (∀ k, (attempt ≤ k < maxAttempts)%nat → retryableFailure (net k) = true) →
  net maxAttempts = FetchResponse (mkResponse status body) →
  ok (mkResponse status body) = false →
  (attempts (S remaining) attempt net).1 = Threw (statusError status).
Proof.
  induction remaining as [|remaining IH]; intros attempt Hinv Hretry Hlast Hok.
  - assert (attempt = maxAttempts) as -> by lia.
    cbn [attempts]. rewrite Hlast. unfold loopBody. rewrite Hok.
    cbn [resp_status]. rewrite Nat.ltb_irrefl, andb_false_r. done.
  - pose proof (IH (S attempt) ltac:(lia)) as IH'.
    rewrite attempts_S.
    pose proof (loopBody_Continue attempt (net attempt)) as Hc.
    destruct (loopBody attempt (net attempt)) as [step effects].
    cbn [fst] in Hc.
    assert (step = Continue) as ->.
    { apply Hc. split; [lia|]. apply Hretry. lia. }
    destruct (attempts (S remaining) (S attempt) net) as [outcome later].
    cbn [fst] in *. apply IH'; [|done|done].
    intros k Hk. apply Hretry. lia.
Qed.

Lemma loopBody_final attempt fetched :
  (loopBody attempt fetched).1 = Continue
  ∨ (loopBody attempt fetched).1
    = match attemptError fetched with
      | None => Return
      | Some e => Throw e
      end.
Proof.
  destruct fetched as [e|[status [[|e]|]]];
    unfold loopBody, outerCatch, attemptError; cbn [resp_body resp_status];
    repeat (match goal with
            | |- context [ok ?r] => destruct (ok r)
            | |- context [(?a <? ?b)%nat] => destruct (a <? b)%nat
            | |- context [isRetryableFetchError ?e] =>
                destruct (isRetryableFetchError e)
            | |- context [retryable ?s] => destruct (retryable s)
            end; cbn [andb fst]); auto.
Qed.

Lemma attempts_run net remaining : ∀ attempt,
  (remaining + attempt = maxAttempts + 1)%nat → (1 ≤ remaining)%nat →
  ∃ n, (attempt ≤ n ≤ maxAttempts)%nat
       ∧ fetches (attempts remaining attempt net).2 = seq attempt (S n - attempt)
       ∧ (∀ k, (attempt ≤ k < n)%nat → retryableFailure (net k) = true)
       ∧ ((n < maxAttempts)%nat → retryableFailure (net n) = false)
       ∧ (attempts remaining attempt net).1
         = match attemptError (net n) with
           | None => Returned
           | Some e => Threw e
           end.
Proof.
  induction remaining as [|remaining IH]; intros attempt Hinv Hpos; [lia|].
  rewrite attempts_S.
  pose proof (loopBody_fetches attempt (net attempt)) as Hf.
  pose proof (loopBody_Continue attempt (net attempt)) as Hc.
  pose proof (loopBody_final attempt (net attempt)) as Hfin.
  destruct (loopBody attempt (net attempt)) as [step effects].
  cbn [fst snd] in *.
  assert (Hstop : step ≠ Continue →
                  ∀ k, (attempt ≤ k < attempt)%nat → retryableFailure (net k) = true)
    by (intros; lia).
  destruct step as [| |e].
  - destruct (proj1 Hc eq_refl) as [Hlt Hretry].
    destruct (IH (S attempt)) as (n & Hn & Hfe & Hre & Hlast & Hout); [lia|lia|].
    destruct (attempts remaining (S attempt) net) as [outcome later].
    cbn [fst snd] in *. exists n. split_and!; [lia|lia| | |done|done].
    + rewrite fetches_app, Hf, Hfe.
      replace (S n - attempt)%nat with (S (S n - S attempt)) by lia. done.
    + intros k Hk. destruct (decide (k = attempt)) as [->|Hne]; [done|].
      apply Hre. lia.
  - exists attempt. cbn [fst snd].
    replace (S attempt - attempt)%nat with 1%nat by lia.
    split_and!; [lia|lia|done|intros k Hk; lia| |].
    + intros Hlt. destruct (retryableFailure (net attempt)) eqn:Hr; [|done].
      discriminate (proj2 Hc (conj Hlt eq_refl)).
    + destruct Hfin as [Hfin|Hfin]; [done|].
      destruct (attemptError (net attempt)); by inversion Hfin.
  - exists attempt. cbn [fst snd].
    replace (S attempt - attempt)%nat with 1%nat by lia.
    split_and!; [lia|lia|done|intros k Hk; lia| |].
    + intros Hlt. destruct (retryableFailure (net attempt)) eqn:Hr; [|done].
      discriminate (proj2 Hc (conj Hlt eq_refl)).
    + destruct Hfin as [Hfin|Hfin]; [done|].
      destruct (attemptError (net attempt)); by inversion Hfin.
Qed.

End DownloadFacts.

(** ** Claims about the download *)

Section DownloadClaims.
Import Errors Download DownloadSpec.

(** C5.  An attempt is followed by a retry exactly when attempts are left
    (it is not the sixth) and it failed in a retryable way: the fetch or
    the pipeline threw an abort, a socket reset or one of the two
    connection-closed messages, or the response was no good response and
    its status is 502, 503 or 504.  The wait before the retry is 3000 ms
    times the number of the failed attempt, and it is the only wait of the
    attempt.  A response with any other status that is not a good response
    throws at once.  A whole call makes the attempts 1..n, where n is the
    first attempt that is not followed by a retry (at most the sixth), with
    the waits 3000, 6000, ... between them; it returns when attempt n wrote
    the file and otherwise throws the error of attempt n.  So a call whose
    attempt n, after retried attempts only, is answered with a status other
    than 502, 503 and 504 that is no good response throws
    "Replay download failed: <status>" with no fetch and no wait after it,
    and a call whose six attempts all fail throws the error of the sixth.
    With 502 on attempts 1 to 3 and a good response on attempt 4 the call
    returns after waits of 3000, 6000 and 9000 ms; with the first request
    aborted by its timeout and a good response on attempt 2 it returns
    after one wait of 3000 ms. *)
Theorem downloadReplay_retry_policy :
  (∀ attempt fetched,
     ((loopBody attempt fetched).1 = Continue ↔
      (attempt < 6)%nat ∧ retryableFailure fetched = true)
     ∧ sleeps (loopBody attempt fetched).2
       = match (loopBody attempt fetched).1 with
         | Continue => [3000 * Z.of_nat attempt]
         | _ => []
         end)
  ∧ (∀ error,
       isRetryableFetchError error = true ↔
       ∃ e, error = Thrown e
            ∧ (err_name e = "AbortError"
               ∨ err_cause_code e = Some "UND_ERR_SOCKET"
               ∨ Js.includes "terminated" (default "" (err_message e)) = true
               ∨ Js.includes "other side closed" (default "" (err_message e)) = true))
  ∧ (∀ status, retryable status = true ↔ status = 502 ∨ status = 503 ∨ status = 504)
  ∧ (∀ attempt status body,
       retryable status = false →
       ok (mkResponse status body) = false ∨ body = None →
       loopBody attempt (FetchResponse (mkResponse status body))
       = (Throw (statusError status), [EFetch attempt]))
  ∧ (∀ net, ∃ n, (1 ≤ n ≤ 6)%nat
       ∧ fetches (downloadReplay net).2 = seq 1 n
       ∧ sleeps (downloadReplay net).2
         = (λ k, 3000 * Z.of_nat k) <$> seq 1 (n - 1)
       ∧ (∀ k, (1 ≤ k < n)%nat → retryableFailure (net k) = true)
       ∧ ((n < 6)%nat → retryableFailure (net n) = false)
       ∧ (downloadReplay net).1
         = match attemptError (net n) with
           | None => Returned
           | Some e => Threw e
           end)
  ∧ downloadReplay three_502_then_ok
    = (Returned, [EFetch 1; ESleep 3000; EFetch 2; ESleep 6000;
                  EFetch 3; ESleep 9000; EFetch 4; EWrite 4])
  ∧ downloadReplay abort_then_ok
    = (Returned, [EFetch 1; ESleep 3000; EFetch 2; EWrite 2])
  ∧ (∀ net n status body,
       (1 ≤ n ≤ 6)%nat →
       (∀ k, (1 ≤ k < n)%nat → retryableFailure (net k) = true) →
       net n = FetchResponse (mkResponse status body) →
       retryable status = false →
       ok (mkResponse status body) = false ∨ body = None →
       (downloadReplay net).1 = Threw (statusError status)
       ∧ fetches (downloadReplay net).2 = seq 1 n
       ∧ sleeps (downloadReplay net).2
         = (λ k, 3000 * Z.of_nat k) <$> seq 1 (n - 1))
  ∧ (∀ net e,
       (∀ k, (1 ≤ k < 6)%nat → retryableFailure (net k) = true) →
       attemptError (net 6%nat) = Some e →
       (downloadReplay net).1 = Threw e
       ∧ fetches (downloadReplay net).2 = [1; 2; 3; 4; 5; 6]%nat
       ∧ sleeps (downloadReplay net).2 = [3000; 6000; 9000; 12000; 15000]).
Proof.
  assert (Hrun : ∀ net, ∃ n, (1 ≤ n ≤ 6)%nat
       ∧ fetches (downloadReplay net).2 = seq 1 n
       ∧ sleeps (downloadReplay net).2
         = (λ k, 3000 * Z.of_nat k) <$> seq 1 (n - 1)
       ∧ (∀ k, (1 ≤ k < n)%nat → retryableFailure (net k) = true)
       ∧ ((n < 6)%nat → retryableFailure (net n) = false)
       ∧ (downloadReplay net).1
         = match attemptError (net n) with
           | None => Returned
           | Some e => Threw e
           end).
  { intros net.
    destruct (attempts_shape net maxAttempts 1) as (m & Hm & Hp & Hfm & Hs);
      [done|].
    destruct (attempts_run net maxAttempts 1) as (n & Hn & Hf & Hr & Hl & Ho);
      [done|unfold maxAttempts; lia|].
    unfold downloadReplay, maxAttempts in *.
    replace (S n - 1)%nat with n in Hf by lia.
    assert (m = n) as ->.
    { apply (f_equal length) in Hfm. rewrite Hf, !length_seq in Hfm. done. }
    exists n. split_and!; try done; lia. }
  assert (Hlast : ∀ net n,
            (1 ≤ n ≤ 6)%nat →
            (∀ k, (1 ≤ k < n)%nat → retryableFailure (net k) = true) →
            ((n < 6)%nat → retryableFailure (net n) = false) →
            fetches (downloadReplay net).2 = seq 1 n
            ∧ sleeps (downloadReplay net).2
              = (λ k, 3000 * Z.of_nat k) <$> seq 1 (n - 1)
            ∧ (downloadReplay net).1
              = match attemptError (net n) with
                | None => Returned
                | Some e => Threw e
                end).
  { intros net n Hn Hbefore Hat.
    destruct (Hrun net) as (m & Hm & Hf & Hs & Hr & Hl & Ho).
    assert (m = n) as ->; [|done].
    destruct (Nat.lt_trichotomy m n) as [Hlt|[Heq|Hgt]]; [|done|].
    - rewrite Hbefore in Hl by lia. discriminate Hl. lia.
    - rewrite Hr in Hat by lia. discriminate Hat. lia. }
  split_and!.
  - intros attempt fetched. split; [apply loopBody_Continue|apply loopBody_sleeps].
  - intros [|e]; simpl.
    + split; [done|]. by intros (e & [=] & _).
    + rewrite !orb_true_iff, String.eqb_eq, bool_decide_eq_true. split.
      * intros H. exists e. split; [done|]. tauto.
      * intros (e' & [= <-] & H). tauto.
  - intros status. unfold retryable. rewrite !orb_true_iff, !Z.eqb_eq. tauto.
  - intros attempt status body Hr Hnot. unfold loopBody.
    cbn [resp_status resp_body]. rewrite Hr. cbn [andb].
    destruct Hnot as [->| ->]; [done|]. by destruct (ok _).
  - exact Hrun.
  - by vm_compute.
  - by vm_compute.
  - intros net n status body Hn Hbefore Hnet Hr Hnot.
    assert (Hfail : retryableFailure (net n) = false
                    ∧ attemptError (net n) = Some (statusError status)).
    { rewrite Hnet. unfold retryableFailure, attemptError.
      cbn [resp_status resp_body].
      destruct Hnot as [->| ->]; [done|]. by destruct (ok _). }
    destruct Hfail as [Hno Herr].
    destruct (Hlast net n Hn Hbefore (λ _, Hno)) as (Hf & Hs & Ho).
    by rewrite Ho, Herr.
  - intros net e Hbefore Herr.
    destruct (Hlast net 6%nat ltac:(lia) Hbefore ltac:(lia)) as (Hf & Hs & Ho).
    by rewrite Ho, Herr.
Qed.

Lemma downloadReplay_retry_policy_witness :
  loopBody 2 (FetchResponse (mkResponse 404 None))
  = (Throw (statusError 404), [EFetch 2]).
Proof.
  apply (proj1 (proj2 (proj2 (proj2 downloadReplay_retry_policy))) 2%nat 404 None).
  - reflexivity.
  - right. reflexivity.
Defined.

(** A response with a status from 200 to 299 whose body is present is
    not failed for its status, however much the body carries: the test is
    [response.ok && response.body], and a body stream is an object.  It is
    piped into the output file, so the file is written; when the pipeline
    completes the call returns, and when the pipeline breaks the attempt
    is retried like any broken stream. *)
Lemma ok_response_with_present_body_is_written :
  downloadReplay (λ _, good_response) = (Returned, [EFetch 1; EWrite 1])
  ∧ downloadReplay two_broken_then_ok
    = (Returned, [EFetch 1; EWrite 1; ERemove 1; ESleep 3000;
                  EFetch 2; EWrite 2; ERemove 2; ESleep 6000;
                  EFetch 3; EWrite 3]).
Proof. split; by vm_compute. Qed.

(** C10.  At whichever attempt it arrives, a response with a status from
    200 to 299 and no body ([response.body] is [null]) makes the call throw
    at once the error "Replay download failed: <status>": the attempt's
    only effect is its fetch, so nothing is written, nothing is waited for
    and no attempt follows.  For status 200 the message is
    "Replay download failed: 200".  A response with such a status and a
    body that is present goes into the pipeline instead, whatever the body
    carries: the output file is written, the call returns when the
    pipeline completes, and when the pipeline throws the file is removed
    and the thrown error, not a status error, is retried or thrown. *)
Theorem downloadReplay_ok_response_fails_only_without_body
        net remaining attempt status :
  200 ≤ status ≤ 299 →
  (net attempt = FetchResponse (mkResponse status None) →
   attempts (S remaining) attempt net
   = (Threw (statusError status), [EFetch attempt])
   ∧ (attempt = 1%nat →
      downloadReplay net = (Threw (statusError status), [EFetch 1])))
  ∧ message_of (statusError status) = "Replay download failed: " +:+ pretty status
  ∧ message_of (statusError 200) = "Replay download failed: 200"
  ∧ (net attempt = FetchResponse (mkResponse status (Some PipelineDone)) →
     attempts (S remaining) attempt net
     = (Returned, [EFetch attempt; EWrite attempt]))
  ∧ (∀ e, net attempt
          = FetchResponse (mkResponse status (Some (PipelineThrows e))) →
          loopBody attempt (net attempt)
          = if (attempt <? 6)%nat && isRetryableFetchError e
            then (Continue, [EFetch attempt; EWrite attempt; ERemove attempt;
                             ESleep (3000 * Z.of_nat attempt)])
            else (Throw e, [EFetch attempt; EWrite attempt; ERemove attempt])).
Proof.
  intros Hs.
  assert (Hok : ∀ body, ok (mkResponse status body) = true).
  { intros body. unfold ok. cbn [resp_status].
    apply andb_true_iff. split; apply Z.leb_le; lia. }
  split_and!; try done.
  - intros Hnet.
    assert (Hstep : loopBody attempt (net attempt)
                    = (Throw (statusError status), [EFetch attempt])).
    { rewrite Hnet. unfold loopBody. cbn [resp_status resp_body].
      assert (retryable status = false) as ->.
      { unfold retryable. rewrite !orb_false_iff, !Z.eqb_neq. lia. }
      by destruct (ok _). }
    split.
    + by rewrite attempts_S, Hstep.
    + intros ->. unfold downloadReplay, maxAttempts. by rewrite attempts_S, Hstep.
  - intros Hnet. rewrite attempts_S, Hnet. unfold loopBody.
    by rewrite Hok.
  - intros e Hnet. rewrite Hnet. unfold loopBody, outerCatch.
    rewrite Hok. cbn [resp_body]. unfold maxAttempts.
    by destruct ((attempt <? 6)%nat && isRetryableFetchError e).
Qed.

Lemma downloadReplay_ok_response_fails_only_without_body_witness :
  attempts 6 1 (λ _, status_only 200)
  = (Threw (new_Error "Replay download failed: 200"), [EFetch 1]).
Proof.
  refine (proj1 (proj1 (downloadReplay_ok_response_fails_only_without_body
                          (λ _, status_only 200) 5 1 200 _) _)).
  - lia.
  - reflexivity.
Defined.

End DownloadClaims.

(** ** Facts about the download cycle *)

Section OrchestratorFacts.
Import JobStore Errors Download Orchestrator.

Lemma statusOf_update_where_id s i t :
  (∃ j, j ∈ t ∧ id j = i) →
  statusOf i (update_where_id (with_status s) i t) = Some s.
Proof.
  intros (j & Hj & Hi). unfold statusOf, update_where_id.
  induction t as [|a t IH]; [by apply elem_of_nil in Hj|].
  rewrite fmap_cons. cbn [List.find].
  destruct (decide (id a = i)) as [Ha|Ha].
  - cbn [with_status id]. by rewrite bool_decide_eq_true_2.
  - rewrite bool_decide_eq_false_2 by done.
    apply elem_of_cons in Hj as [->|Hj]; [done|]. by apply IH.
Qed.

(** The row a claim returns is in the table the claim leaves. *)
Lemma getPendingMatch_row_present locked t row t' :
  getPendingMatch locked t = (Some row, t') →
  ∃ j, j ∈ t' ∧ id j = row_id row.
Proof.
  intros (j & Hj & -> & _ & _ & _ & ->)%getPendingMatch_Some.
  exists (with_status processing j). split; [|done].
  by apply update_where_id_hit.
Qed.

(** Among the three-digit statuses, only 502 gives a message with the
    marker the [catch] block looks for. *)
Lemma marker502_iff status :
  100 ≤ status ≤ 999 →
  Js.includes marker502 (message_of (statusError status)) = true ↔ status = 502.
Proof.
  intros Hr.
  assert (Hall : forallb
                   (λ n, Bool.eqb (Js.includes marker502
                                     (message_of (statusError (Z.of_nat n))))
                                  (Z.of_nat n =? 502))
                   (seq 100 900) = true) by (vm_compute; reflexivity).
  rewrite forallb_forall in Hall.
  specialize (Hall (Z.to_nat status)).
  rewrite Z2Nat.id in Hall by lia.
  assert (Hin : In (Z.to_nat status) (seq 100 900)) by (apply in_seq; lia).
  apply Hall, eqb_prop in Hin. rewrite Hin. apply Z.eqb_eq.
Qed.

(** What the cycle leaves when the [try] block fails for a claimed row. *)
Lemma processPending_failed cfg cy st row t e log :
  isProcessing st = false → gcReady st = true →
  getPendingMatch (locked cy) (db st) = (Some row, t) →
  tryBody cfg cy st row t = (Failed e, log) →
  processPending cfg cy st =
  (if Js.includes marker502 (message_of e)
   then mkState false true
                (<[row_id row := nowAtFailure cy + RETRY_COOLDOWN_MS cfg]>
                   (retryAfterByMatchId st))
                (markPending (row_id row) t)
   else mkState false true (retryAfterByMatchId st) (markError (row_id row) t),
   log).
Proof.
  intros Hp Hg Hc Hb. unfold processPending.
  rewrite Hp, Hg, Hc, Hb. cbn [orb negb]. unfold onFailure.
  by destruct (Js.includes _ _).
Qed.

End OrchestratorFacts.

(** ** Claims about the download cycle *)

Section OrchestratorClaims.
Import JobStore Errors Download Orchestrator.

(** C4, counterexample.  The download of job 7 gets 503 on attempts 1 to 5
    and 502 on attempt 6: not a 502 on all six attempts, yet the job is not
    marked [error]; it is put back to [pending] with a cooldown deadline. *)
Lemma requeue_when_only_the_last_attempt_is_502 :
  let cy := cycle_with (inl Resolver.sample_response) five_503_then_502 in
  let st' := (processPending default_config cy one_job_state).1 in
  five_503_then_502 1 = status_only 503
  ∧ (downloadReplay five_503_then_502).1 = Threw (statusError 502)
  ∧ statusOf 7 (db st') = Some pending
  ∧ retryAfterByMatchId st' !! 7 = Some 302000.
Proof. by vm_compute. Qed.

(** C4, amended.  For a claimed row that is not cooling down: when the
    download ends with the error "Replay download failed: 502", which is
    what happens when the sixth attempt answers 502 after five attempts that
    failed in a retryable way, and so in particular when all six answer 502,
    the cycle records the deadline [Date.now() + RETRY_COOLDOWN_MS] for the
    job id (strictly later than now for a positive cooldown) and sets the
    job back to [pending], not to [error].  Every failure of the cycle after
    the claim whose message does not contain that text marks the job
    [error] and records no deadline; among download errors that carry a
    three-digit status, exactly the one for 502 contains it. *)
Theorem processPending_failure_policy cfg cy st row t :
  isProcessing st = false → gcReady st = true →
  getPendingMatch (locked cy) (db st) = (Some row, t) →
  (∀ matchList body,
     coolingDown st cy row = false →
     matchResult cy (row_share_code row) = inl matchList →
     Js.truthy (Resolver.findReplayUrl matchList) = true →
     mkdirResult cy = None →
     let fetch := net cy (Js.to_string (Resolver.findReplayUrl matchList)) in
     (∀ k, (1 ≤ k < 6)%nat → retryableFailure (fetch k) = true) →
     fetch 6%nat = FetchResponse (mkResponse 502 body) →
     let st' := (processPending cfg cy st).1 in
     (downloadReplay fetch).1 = Threw (statusError 502)
     ∧ retryAfterByMatchId st' !! row_id row
       = Some (nowAtFailure cy + RETRY_COOLDOWN_MS cfg)
     ∧ (0 < RETRY_COOLDOWN_MS cfg →
        nowAtFailure cy < nowAtFailure cy + RETRY_COOLDOWN_MS cfg)
     ∧ db st' = markPending (row_id row) t
     ∧ statusOf (row_id row) (db st') = Some pending
     ∧ isProcessing st' = false)
  ∧ (∀ e log,
       tryBody cfg cy st row t = (Failed e, log) →
       let st' := (processPending cfg cy st).1 in
       if Js.includes marker502 (message_of e)
       then retryAfterByMatchId st' !! row_id row
            = Some (nowAtFailure cy + RETRY_COOLDOWN_MS cfg)
            ∧ statusOf (row_id row) (db st') = Some pending
       else retryAfterByMatchId st' = retryAfterByMatchId st
            ∧ db st' = markError (row_id row) t
            ∧ statusOf (row_id row) (db st') = Some error)
  ∧ (∀ status, 100 ≤ status ≤ 999 →
       Js.includes marker502 (message_of (statusError status)) = true
       ↔ status = 502).
Proof.
  intros Hp Hg Hc.
  pose proof (getPendingMatch_row_present _ _ _ _ Hc) as Hrow.
  assert (Hfail : ∀ e log,
             tryBody cfg cy st row t = (Failed e, log) →
             let st' := (processPending cfg cy st).1 in
             if Js.includes marker502 (message_of e)
             then retryAfterByMatchId st' !! row_id row
                  = Some (nowAtFailure cy + RETRY_COOLDOWN_MS cfg)
                  ∧ db st' = markPending (row_id row) t
                  ∧ statusOf (row_id row) (db st') = Some pending
                  ∧ isProcessing st' = false
             else retryAfterByMatchId st' = retryAfterByMatchId st
                  ∧ db st' = markError (row_id row) t
                  ∧ statusOf (row_id row) (db st') = Some error).
  { intros e log Hb. cbn zeta.
    rewrite (processPending_failed cfg cy st row t e log Hp Hg Hc Hb).
    destruct (Js.includes _ _); cbn [fst retryAfterByMatchId db isProcessing].
    - split; [apply lookup_insert_eq|]. split; [done|]. split; [|done].
      by apply statusOf_update_where_id.
    - split; [done|]. split; [done|]. by apply statusOf_update_where_id. }
  split_and!.
  - intros matchList body Hcool Hm Hu Hmk fetch Hretry Hlast st'.
    assert (Hdl : (downloadReplay fetch).1 = Threw (statusError 502)).
    { unfold downloadReplay, maxAttempts.
      apply (attempts_exhausted fetch 502 body 5 1); try done.
      all: intros k Hk; apply Hretry; unfold maxAttempts in Hk; lia. }
    assert (Hb : ∃ log, tryBody cfg cy st row t = (Failed (statusError 502), log)).
    { unfold tryBody. rewrite Hcool, Hm, Hu, Hmk. cbn [negb].
      fold fetch. destruct (downloadReplay fetch) as [outcome effects].
      cbn [fst] in Hdl. subst outcome. eauto. }
    destruct Hb as [log Hb]. specialize (Hfail _ _ Hb).
    change (Js.includes marker502 (message_of (statusError 502))) with true in Hfail.
    cbn zeta in Hfail. destruct Hfail as (H1 & H2 & H3 & H4).
    split_and!; try done. lia.
  - intros e log Hb st'. specialize (Hfail e log Hb). cbn zeta in Hfail.
    destruct (Js.includes _ _); [|done]. tauto.
  - apply marker502_iff.
Qed.

Lemma processPending_failure_policy_witness :
  let cy := cycle_with (inl Resolver.sample_response) always_502 in
  let st' := (processPending default_config cy one_job_state).1 in
  (downloadReplay always_502).1 = Threw (statusError 502)
  ∧ retryAfterByMatchId st' !! 7 = Some (2000 + 300000)
  ∧ (0 < 300000 → 2000 < 2000 + 300000)
  ∧ db st' = markPending 7 [with_status processing
                              (new_job 7 "CSGO-share" "76561198000000001")]
  ∧ statusOf 7 (db st') = Some pending
  ∧ isProcessing st' = false.
Proof.
  refine (proj1 (processPending_failure_policy
                   default_config
                   (cycle_with (inl Resolver.sample_response) always_502)
                   one_job_state
                   (mkRow 7 "CSGO-share" "76561198000000001" "76561198000000001")
                   [with_status processing
                      (new_job 7 "CSGO-share" "76561198000000001")]
                   _ _ _)
                Resolver.sample_response None _ _ _ _ _ _).
  - reflexivity.
  - reflexivity.
  - by vm_compute.
  - by vm_compute.
  - reflexivity.
  - by vm_compute.
  - reflexivity.
  - intros k _. reflexivity.
  - reflexivity.
Defined.

End OrchestratorClaims.

(** ** The coordinator client *)

Section CoordinatorFacts.
Import Errors Coordinator.

Lemma settle_lookup_other call c s p :
  c ≠ call → settle c s p !! call = p !! call.
Proof.
  intros Hne. unfold settle. destruct (p !! c) as [[| |]|]; try done.
  by rewrite lookup_insert_ne.
Qed.

Lemma settle_lookup_pending call s p :
  p !! call = Some Pending → settle call s p !! call = Some s.
Proof. intros Hp. unfold settle. rewrite Hp. apply lookup_insert_eq. Qed.

Lemma settle_lookup_settled call c s s0 p :
  p !! call = Some s0 → s0 ≠ Pending → settle c s p !! call = Some s0.
Proof.
  intros Hp Hs. destruct (decide (c = call)) as [->|Hne].
  - unfold settle. rewrite Hp. by destruct s0.
  - by rewrite settle_lookup_other.
Qed.

(** Running the callbacks of expired timeouts settles a pending call that
    has one of them, and leaves a settled call as it is. *)
Lemma expire_settled call s0 (due : list (nat * Z)) : ∀ p,
  p !! call = Some s0 → s0 ≠ Pending →
  foldl (λ p t, settle t.1 (Rejected timeoutError) p) p due !! call = Some s0.
Proof.
  induction due as [|t due IH]; intros p Hp Hs; [done|].
  simpl. apply IH; [|done]. by apply settle_lookup_settled.
Qed.

Lemma expire_pending call (due : list (nat * Z)) : ∀ p,
  p !! call = Some Pending → call ∈ due.*1 →
  foldl (λ p t, settle t.1 (Rejected timeoutError) p) p due !! call
  = Some (Rejected timeoutError).
Proof.
  induction due as [|t due IH]; intros p Hp Hin; [by apply elem_of_nil in Hin|].
  simpl. destruct (decide (t.1 = call)) as [Heq|Hne].
  - apply expire_settled; [|done]. rewrite Heq. by apply settle_lookup_pending.
  - apply IH.
    + by rewrite settle_lookup_other.
    + rewrite fmap_cons in Hin. apply elem_of_cons in Hin as [Heq|Hin]; [|done].
      by destruct Hne.
Qed.

End CoordinatorFacts.

Section CoordinatorClaims.
Import JobStore Errors Coordinator Orchestrator.

(** C6.  A call whose request was sent and that gets no ["matchList"] event
    for 20 seconds or more is rejected with the error "Timed out waiting for
    matchList", and its timeout is gone, but its handler is still registered
    on the emitter: the timeout callback does not take it off, while the
    path for a failing send of the same function does.  In the cycle, that
    rejection marks the claimed job [error] and records no cooldown. *)
Theorem requestMatch_timeout_leaves_listener w ms :
  20000 ≤ ms →
  let call := (requestMatch None w).1 in
  let w' := elapse ms (requestMatch None w).2 in
  promises w' !! call = Some (Rejected timeoutError)
  ∧ call ∈ listeners w'
  ∧ (∀ t, t ∈ timers w' → t ∈ timers w)
  ∧ (∀ e, call ∉ listeners (requestMatch (Some e) w).2)
  ∧ (∀ cfg cy st row t,
       isProcessing st = false → gcReady st = true →
       getPendingMatch (locked cy) (db st) = (Some row, t) →
       coolingDown st cy row = false →
       matchResult cy (row_share_code row) = inr timeoutError →
       let st' := (processPending cfg cy st).1 in
       db st' = markError (row_id row) t
       ∧ statusOf (row_id row) (db st') = Some error
       ∧ retryAfterByMatchId st' = retryAfterByMatchId st).
Proof.
  intros Hms call w'. split_and!.
  - unfold w', elapse, requestMatch. cbn [promises timers clock fst snd].
    apply expire_pending; [apply lookup_insert_eq|].
    apply list_elem_of_fmap. exists (calls w, clock w + 20000). split; [done|].
    apply list_elem_of_filter. split; [cbn [snd]; lia|].
    apply elem_of_app. right. apply elem_of_cons. by left.
  - unfold w', elapse, requestMatch. cbn [listeners snd fst].
    apply elem_of_app. right. apply elem_of_cons. by left.
  - intros t. unfold w', elapse, requestMatch. cbn [timers clock snd].
    intros [Hnd [Hin|Hin]%elem_of_app]%list_elem_of_filter; [done|].
    apply elem_of_cons in Hin as [->|[]%elem_of_nil]. cbn [snd] in Hnd. lia.
  - intros e. unfold requestMatch, removeListener. cbn [listeners snd].
    by intros [Hne _]%list_elem_of_filter.
  - intros cfg cy st row t Hp Hg Hc Hcool Hm st'.
    assert (Hb : tryBody cfg cy st row t
                 = (Failed timeoutError, [ERequestMatch (row_share_code row)])).
    { unfold tryBody. by rewrite Hcool, Hm. }
    unfold st'. rewrite (processPending_failed _ _ _ _ _ _ _ Hp Hg Hc Hb).
    change (Js.includes marker502 (message_of timeoutError)) with false.
    cbn [fst db retryAfterByMatchId]. split_and!; try done.
    apply statusOf_update_where_id. by eapply getPendingMatch_row_present.
Qed.

Lemma requestMatch_timeout_leaves_listener_witness :
  promises (elapse 20000 (requestMatch None start).2) !! 0%nat
  = Some (Rejected timeoutError)
  ∧ (0%nat ∈ listeners (elapse 20000 (requestMatch None start).2)).
Proof.
  pose proof (requestMatch_timeout_leaves_listener start 20000 ltac:(lia))
    as (Hrej & Hlisten & _).
  split; [exact Hrej|exact Hlisten].
Defined.

End CoordinatorClaims.

(** ** Messages to users *)

Section NotifierFacts.
Import JobStore Notifier.

Context (E : EFriendRelationship) (client : Client) (sendThrows : TipRow → bool).

Lemma elem_of_fetchPendingTips row t :
  row ∈ fetchPendingTips t → ∃ j, j ∈ t ∧ tip_due j ∧ row = tip_row_of j.
Proof.
  unfold fetchPendingTips. intros (j & -> & Hj)%list_elem_of_fmap.
  rewrite merge_sort_Permutation in Hj.
  apply list_elem_of_filter in Hj as [Hd Hj]. by exists j.
Qed.

(** A row whose recipient cannot be messaged is passed over. *)
Lemma sendRows_skip rows1 row rows2 : ∀ t,
  canMessageUser E client (tip_steam_id row) = false →
  sendRows E client sendThrows (rows1 ++ row :: rows2) t
  = sendRows E client sendThrows (rows1 ++ rows2) t.
Proof.
  induction rows1 as [|r rows1 IH]; intros t Hno.
  - cbn [app sendRows]. by rewrite Hno.
  - rewrite <- !app_comm_cons. cbn [sendRows].
    destruct (negb (canMessageUser E client (tip_steam_id r))); [by apply IH|].
    destruct (sendThrows r); by rewrite IH.
Qed.

(** Every send in the log is for a row whose recipient can be messaged;
    every [markTipSent] is for a row whose send did not throw and comes
    right after that send; rows that are not marked stay as they are. *)
Lemma sendRows_log rows : ∀ t,
  let result := sendRows E client sendThrows rows t in
  (∀ sid txt threw, ESend sid txt threw ∈ result.2 →
     canMessageUser E client sid = true)
  ∧ (∀ i, EMarkTipSent i ∈ result.2 →
       ∃ row, row ∈ rows ∧ tip_id row = i
              ∧ canMessageUser E client (tip_steam_id row) = true)
  ∧ (∀ j, j ∈ t →
       (∀ row, row ∈ rows → tip_id row = id j →
               canMessageUser E client (tip_steam_id row) = false) →
       j ∈ result.1)
  ∧ (∀ l1 i l2, result.2 = l1 ++ EMarkTipSent i :: l2 →
       ∃ l0 row, l1 = l0 ++ [ESend (tip_steam_id row) (tip_text row) false]
                 ∧ tip_id row = i ∧ sendThrows row = false
                 ∧ canMessageUser E client (tip_steam_id row) = true).
Proof.
  induction rows as [|r rows IH]; intros t; cbn zeta.
  - cbn [sendRows fst snd]. split_and!.
    + by intros sid txt threw ?%elem_of_nil.
    + by intros i ?%elem_of_nil.
    + done.
    + intros [|? l1] i l2 Heq; discriminate Heq.
  - cbn [sendRows].
    destruct (canMessageUser E client (tip_steam_id r)) eqn:Hcan; cbn [negb].
    2:{ destruct (IH t) as (H1 & H2 & H3 & H4). split_and!; try done.
        - intros i Hi. destruct (H2 i Hi) as (row & Hrow & Hrest).
          exists row. split; [apply elem_of_cons; auto|done].
        - intros j Hj Hno. apply H3; [done|].
          intros row Hrow. apply Hno, elem_of_cons. auto. }
    destruct (sendThrows r) eqn:Hthrow.
    + destruct (IH t) as (H1 & H2 & H3 & H4).
      destruct (sendRows E client sendThrows rows t) as [t' log].
      cbn [fst snd] in *. split_and!.
      * intros sid txt threw [[= -> _ _]|Hin]%elem_of_cons; [done|by eapply H1].
      * intros i [[=]|Hi]%elem_of_cons.
        destruct (H2 i Hi) as (row & Hrow & Hrest).
        exists row. split; [apply elem_of_cons; auto|done].
      * intros j Hj Hno. apply H3; [done|].
        intros row Hrow. apply Hno, elem_of_cons. auto.
      * intros [|e l1] i l2 Heq; [discriminate Heq|].
        injection Heq as <- Heq. destruct (H4 _ _ _ Heq) as (l0 & row & -> & Hrest).
        exists (ESend (tip_steam_id r) (tip_text r) true :: l0), row. by split.
    + destruct (IH (markTipSent (tip_id r) t)) as (H1 & H2 & H3 & H4).
      destruct (sendRows E client sendThrows rows (markTipSent (tip_id r) t))
        as [t' log].
      cbn [fst snd] in *. split_and!.
      * intros sid txt threw [[= -> _ _]|Hin]%elem_of_cons; [done|].
        apply elem_of_cons in Hin as [[=]|Hin]. by eapply H1.
      * intros i [[=]|Hi]%elem_of_cons.
        apply elem_of_cons in Hi as [[= ->]|Hi].
        -- exists r. split; [apply elem_of_cons; auto|done].
        -- destruct (H2 i Hi) as (row & Hrow & Hrest).
           exists row. split; [apply elem_of_cons; auto|done].
      * intros j Hj Hno. apply H3.
        -- apply update_where_id_other; [done|]. intros Hid.
           rewrite (Hno r) in Hcan; [done|apply elem_of_cons; auto|done].
        -- intros row Hrow. apply Hno, elem_of_cons. auto.
      * intros [|e1 [|e2 l1]] i l2 Heq; [discriminate Heq| |].
        -- injection Heq as <- <- _. exists [], r. by repeat split.
        -- injection Heq as <- <- Heq.
           destruct (H4 _ _ _ Heq) as (l0 & row & -> & Hrest).
           exists (ESend (tip_steam_id r) (tip_text r) false
                     :: EMarkTipSent (tip_id r) :: l0), row. by split.
Qed.

End NotifierFacts.

Section NotifierClaims.
Import JobStore Notifier.

(** C9.  A recipient whose relationship is missing, [None], [Blocked] or
    [Ignored] cannot be messaged.  In a run of [sendPendingMessages] a job
    of such a recipient is passed over: the run returns as usual, no send to
    that recipient and no [markTipSent] for that job appear in its log, the
    job is in the table afterwards exactly as before, and the rest of the
    batch is handled as if the row were not there.  A [markTipSent] occurs
    in the log only right after the send for the same row, and only when
    that send did not throw. *)
Theorem sendPendingMessages_skips_unreachable_recipient
        E client sendThrows st :
  NoDup (id <$> db st) →
  let st' := (sendPendingMessages E client sendThrows st).1 in
  let log := (sendPendingMessages E client sendThrows st).2 in
  (∀ steamId,
     relationshipOf client steamId = None
     ∨ relationshipOf client steamId = Some (rel_None E)
     ∨ relationshipOf client steamId = Some (rel_Blocked E)
     ∨ relationshipOf client steamId = Some (rel_Ignored E) →
     canMessageUser E client steamId = false)
  ∧ (∀ j, j ∈ db st → canMessageUser E client (user_id j) = false →
       j ∈ db st'
       ∧ (∀ txt threw, ESend (user_id j) txt threw ∉ log)
       ∧ EMarkTipSent (id j) ∉ log)
  ∧ (∀ rows1 row rows2 t,
       canMessageUser E client (tip_steam_id row) = false →
       sendRows E client sendThrows (rows1 ++ row :: rows2) t
       = sendRows E client sendThrows (rows1 ++ rows2) t)
  ∧ (∀ l1 i l2, log = l1 ++ EMarkTipSent i :: l2 →
       ∃ l0 row, l1 = l0 ++ [ESend (tip_steam_id row) (tip_text row) false]
                 ∧ tip_id row = i ∧ sendThrows row = false
                 ∧ canMessageUser E client (tip_steam_id row) = true).
Proof.
  intros Hnd st' log. split_and!.
  - intros steamId Hrel. unfold canMessageUser.
    destruct (String.eqb steamId ""); [done|].
    destruct Hrel as [->|[->|[->| ->]]]; [done|..];
      rewrite ?Z.eqb_refl, ?andb_false_r; done.
  - intros j Hj Hno. unfold st', log, sendPendingMessages.
    destruct (isSendingTips st || negb (steamReady st)).
    { cbn [fst snd]. split; [done|]. split; [|apply not_elem_of_nil].
      intros txt threw. apply not_elem_of_nil. }
    pose proof (sendRows_log E client sendThrows (fetchPendingTips (db st)) (db st))
      as (H1 & H2 & H3 & _).
    destruct (sendRows E client sendThrows (fetchPendingTips (db st)) (db st))
      as [t' log'].
    cbn [fst snd db] in *.
    assert (Hrows : ∀ row, row ∈ fetchPendingTips (db st) → tip_id row = id j →
                           canMessageUser E client (tip_steam_id row) = false).
    { intros row (j' & Hj' & _ & ->)%elem_of_fetchPendingTips Hid.
      cbn [tip_row_of tip_id tip_steam_id] in *.
      by rewrite (id_inj_on (db st) j' j Hnd Hj' Hj Hid). }
    split_and!.
    + by apply H3.
    + intros txt threw Hin. apply H1 in Hin. congruence.
    + intros Hin. destruct (H2 _ Hin) as (row & Hrow & Hid & Hcan).
      rewrite (Hrows row Hrow Hid) in Hcan. done.
  - intros rows1 row rows2 t. apply sendRows_skip.
  - intros l1 i l2. unfold log, sendPendingMessages.
    destruct (isSendingTips st || negb (steamReady st)).
    { cbn [snd]. intros Heq. by destruct l1. }
    pose proof (sendRows_log E client sendThrows (fetchPendingTips (db st)) (db st))
      as (_ & _ & _ & H4).
    destruct (sendRows E client sendThrows (fetchPendingTips (db st)) (db st))
      as [t' log'].
    cbn [fst snd] in *. apply H4.
Qed.

Lemma sendPendingMessages_skips_unreachable_recipient_witness :
  let result := sendPendingMessages steam_user_relationships sample_client
                                    (λ _, false) sample_state in
  blocked_job ∈ db result.1
  ∧ (∀ txt threw, ESend (user_id blocked_job) txt threw ∉ result.2)
  ∧ EMarkTipSent (id blocked_job) ∉ result.2.
Proof.
  refine (proj1 (proj2 (sendPendingMessages_skips_unreachable_recipient
                          steam_user_relationships sample_client (λ _, false)
                          sample_state _))
                blocked_job _ _).
  - decide_by_computation.
  - decide_by_computation.
  - by vm_compute.
Defined.

(** The sample batch: the blocked recipient's job is untouched, the friend
    is sent the tip and that job is marked. *)
Example sendPendingMessages_sample_run :
  sendPendingMessages steam_user_relationships sample_client (λ _, false)
                      sample_state
  = (mkState false true
             [blocked_job;
              mkJob 4 "CSGO-four" "76561198000000004" notified None
                    (Some "Hold the corner.") (Some true)],
     [ESend "76561198000000004" "Hold the corner." false; EMarkTipSent 4]).
Proof. by vm_compute. Qed.

End NotifierClaims.

(** * Further properties of the script *)

(** ** The job store *)

Section StoreOpsFacts.
Import JobStore StoreOps.

Lemma update_where_id_absent f i t :
  (∀ j, j ∈ t → id j ≠ i) → update_where_id f i t = t.
Proof.
  intros Habs. unfold update_where_id.
  rewrite <- (list_fmap_id t) at 2. apply list_fmap_ext.
  intros n j Hj. apply list_elem_of_lookup_2 in Hj.
  rewrite decide_False; [done|]. by apply Habs.
Qed.

Lemma update_where_id_twice f g i t :
  (∀ j, id (g j) = id j) →
  update_where_id f i (update_where_id g i t) = update_where_id (f ∘ g) i t.
Proof.
  intros Hg. unfold update_where_id. rewrite <- list_fmap_compose.
  apply list_fmap_ext. intros n j _. simpl.
  destruct (decide (id j = i)) as [Hi|Hi].
  - rewrite decide_True; [done|]. by rewrite Hg.
  - by rewrite decide_False.
Qed.

Lemma update_where_id_identity f i t :
  (∀ j, identity_of (f j) = identity_of j) →
  (identity_of <$> update_where_id f i t) = (identity_of <$> t).
Proof.
  intros Hf. unfold update_where_id. rewrite <- list_fmap_compose.
  apply list_fmap_ext. intros n j _. simpl. by case_decide.
Qed.

Lemma max_id_of_user_identity t t' u :
  (identity_of <$> t) = (identity_of <$> t') →
  max_id_of_user t u = max_id_of_user t' u.
Proof.
  revert t'. induction t as [|a t IH]; intros [|b t'] Heq; try done.
  rewrite !fmap_cons in Heq. unfold identity_of at 1 3 in Heq.
  injection Heq as Hi Hu _ _ Hrest.
  simpl. by rewrite (IH t' Hrest), Hi, Hu.
Qed.

(** X1.  Whatever the script does to the table (claims under any locks and
    the four transitions, in any order and with any arguments), the rows
    keep their number and their order, and the row at each position keeps
    its id, its owner, its share code and its coach tip: the script neither
    inserts nor deletes, and of the seven columns it writes no other than
    [status], [file_path] and [tip_sent]. *)
Theorem script_keeps_rows ops t :
  Forall script_op ops →
  (identity_of <$> run ops t) = (identity_of <$> t)
  ∧ length (run ops t) = length t
  ∧ (∀ n j', run ops t !! n = Some j' →
       ∃ j, t !! n = Some j
            ∧ id j' = id j ∧ user_id j' = user_id j
            ∧ share_code j' = share_code j ∧ coach_tip j' = coach_tip j).
Proof.
  intros Hops.
  assert (Hid : (identity_of <$> run ops t) = (identity_of <$> t)).
  { revert t. induction Hops as [|o ops Ho Hops IH]; intros t; [done|].
    simpl. rewrite IH. destruct o as [locked|i p|i|i|i|i code user]; simpl.
    - unfold getPendingMatch. destruct (highest _); [|done].
      simpl. by apply update_where_id_identity.
    - by apply update_where_id_identity.
    - by apply update_where_id_identity.
    - by apply update_where_id_identity.
    - by apply update_where_id_identity.
    - destruct Ho. }
  split_and!; [done| |].
  - apply (f_equal length) in Hid. by rewrite !length_fmap in Hid.
  - intros n j' Hn.
    apply (f_equal (λ l, l !! n)) in Hid. rewrite !list_lookup_fmap, Hn in Hid.
    destruct (t !! n) as [j|]; [|done]. exists j.
    cbn in Hid. unfold identity_of in Hid. injection Hid as -> -> -> ->. done.
Qed.

Lemma script_keeps_rows_witness :
  (identity_of <$> run [OpClaim []; OpMarkError 9; OpClaim [4]; OpMarkTipSent 11]
                       three_user_table)
  = (identity_of <$> three_user_table).
Proof.
  refine (proj1 (script_keeps_rows
                   [OpClaim []; OpMarkError 9; OpClaim [4]; OpMarkTipSent 11]
                   three_user_table _)).
  repeat constructor.
Defined.

(** X2.  Each of [markError], [markPending], [markDownloaded] and
    [markTipSent] leaves the table as it is when no row has the given id,
    leaves every row with another id as it is, and gives the same table
    when applied a second time. *)
Theorem transitions_touch_one_id filePath mark i t :
  mark ∈ transitions filePath →
  ((∀ j, j ∈ t → id j ≠ i) → mark i t = t)
  ∧ (∀ j, j ∈ t → id j ≠ i → j ∈ mark i t)
  ∧ mark i (mark i t) = mark i t.
Proof.
  intros Hm. unfold transitions in Hm.
  repeat (apply elem_of_cons in Hm as [->|Hm]); [..|by apply elem_of_nil in Hm].
  all: split_and!;
    [ apply update_where_id_absent
    | intros j Hj Hne; by apply update_where_id_other
    | ].
  all: unfold markError, markPending, markDownloaded, markTipSent.
  all: by rewrite update_where_id_twice.
Qed.

Lemma transitions_touch_one_id_witness :
  markError 5 three_user_table = three_user_table.
Proof.
  refine (proj1 (transitions_touch_one_id "" markError 5 three_user_table _) _).
  - apply elem_of_cons. by left.
  - intros j Hj. unfold three_user_table in Hj.
    repeat (apply elem_of_cons in Hj as [->|Hj]); try (simpl; lia).
    by apply elem_of_nil in Hj.
Defined.

End StoreOpsFacts.

Section ClaimOrderFacts.
Import JobStore StoreOps.

Lemma markPending_undoes_claim locked t row t' :
  NoDup (id <$> t) →
  getPendingMatch locked t = (Some row, t') →
  markPending (row_id row) t' = t.
Proof.
  intros Hnd (j & Hj & -> & [Hs _] & _ & _ & ->)%getPendingMatch_Some.
  unfold markPending. cbn [row_of row_id].
  rewrite update_where_id_twice by done.
  unfold update_where_id. rewrite <- (list_fmap_id t) at 2.
  apply list_fmap_ext. intros n k Hk. apply list_elem_of_lookup_2 in Hk.
  case_decide as Hi; [|done]. simpl.
  rewrite (id_inj_on t k j Hnd Hk Hj Hi).
  rewrite <- Hs at 1. by destruct j.
Qed.

(** X3.  With unique ids, putting a claimed row back with [markPending]
    gives exactly the table from before the claim: claiming and re-parking
    cancel out, and the next claim under the same locks takes the same row
    again. *)
Theorem claim_then_markPending_restores locked t row t' :
  NoDup (id <$> t) →
  getPendingMatch locked t = (Some row, t') →
  markPending (row_id row) t' = t
  ∧ getPendingMatch locked (markPending (row_id row) t') = (Some row, t').
Proof.
  intros Hnd Hc. rewrite (markPending_undoes_claim _ _ _ _ Hnd Hc). by split.
Qed.

Lemma claim_then_markPending_restores_witness :
  markPending 12 (getPendingMatch [] parked_table).2 = parked_table
  ∧ getPendingMatch [] (markPending 12 (getPendingMatch [] parked_table).2)
    = (Some (mkRow 12 "CSGO-newer" "76561198000000001" "76561198000000001"),
       (getPendingMatch [] parked_table).2).
Proof.
  refine (claim_then_markPending_restores
            [] parked_table
            (mkRow 12 "CSGO-newer" "76561198000000001" "76561198000000001")
            (getPendingMatch [] parked_table).2 _ _).
  - decide_by_computation.
  - reflexivity.
Defined.

(** X4.  With unique ids and the same rows locked, two claims made one
    after the other return different rows, the second with the lower id:
    rows are handed out from the highest claimable id downwards. *)
Theorem claims_descend locked t row1 t1 row2 t2 :
  NoDup (id <$> t) →
  getPendingMatch locked t = (Some row1, t1) →
  getPendingMatch locked t1 = (Some row2, t2) →
  row_id row2 < row_id row1.
Proof.
  intros Hnd (j1 & Hj1 & -> & He1 & Hl1 & Hmax & ->)%getPendingMatch_Some
         (j2 & Hj2 & -> & [Hs2 Hm2] & Hl2 & _ & _)%getPendingMatch_Some.
  cbn [row_of row_id].
  apply elem_of_update_where_id in Hj2 as (k & Hk & ->).
  case_decide as Hi; [done|].
  assert (Hek : eligible t k).
  { split; [done|]. rewrite <- Hm2. apply max_id_of_user_identity.
    symmetry. by apply update_where_id_identity. }
  specialize (Hmax k Hk Hek Hl2).
  assert (id k ≠ id j1) by done. lia.
Qed.

Lemma claims_descend_witness :
  row_id (mkRow 4 "CSGO-a" "76561198000000001" "76561198000000001")
  < row_id (mkRow 9 "CSGO-b" "76561198000000002" "76561198000000002").
Proof.
  refine (claims_descend
            [] three_user_table
            (mkRow 9 "CSGO-b" "76561198000000002" "76561198000000002")
            (getPendingMatch [] three_user_table).2
            (mkRow 4 "CSGO-a" "76561198000000001" "76561198000000001")
            (getPendingMatch [] (getPendingMatch [] three_user_table).2).2
            _ _ _).
  - decide_by_computation.
  - reflexivity.
  - reflexivity.
Defined.

End ClaimOrderFacts.

(** ** Tips that are due *)

Section TipFacts.
Import JobStore StoreOps.

Lemma elem_of_fetchPendingTips_iff row t :
  row ∈ fetchPendingTips t ↔ ∃ j, j ∈ t ∧ tip_due j ∧ row = tip_row_of j.
Proof.
  unfold fetchPendingTips. rewrite list_elem_of_fmap. split.
  - intros (j & -> & Hj). rewrite merge_sort_Permutation in Hj.
    apply list_elem_of_filter in Hj as [Hd Hj]. by exists j.
  - intros (j & Hj & Hd & ->). exists j. split; [done|].
    rewrite merge_sort_Permutation. by apply list_elem_of_filter.
Qed.

(** X6.  Once [markTipSent] has run for an id, no row with that id is
    returned by [fetchPendingTips], and the rows of other ids are returned
    as before: a tip marked as sent is never fetched again. *)
Theorem markTipSent_not_due_again i t :
  (∀ row, row ∈ fetchPendingTips (markTipSent i t) → tip_id row ≠ i)
  ∧ (∀ row, tip_id row ≠ i →
       row ∈ fetchPendingTips (markTipSent i t) ↔ row ∈ fetchPendingTips t).
Proof.
  split.
  - intros row (j & Hj & Hd & ->)%elem_of_fetchPendingTips Hi.
    unfold markTipSent in Hj.
    apply elem_of_update_where_id in Hj as (k & Hk & ->).
    cbn [tip_row_of tip_id] in Hi. case_decide as Hki.
    + by destruct Hd as ([|] & _).
    + done.
  - intros row Hne.
    rewrite !elem_of_fetchPendingTips_iff. split.
    + intros (j & Hj & Hd & ->). unfold markTipSent in Hj.
      apply elem_of_update_where_id in Hj as (k & Hk & ->).
      case_decide as Hki; [by destruct Hne|]. by exists k.
    + intros (j & Hj & Hd & ->). exists j. split; [|done].
      by apply update_where_id_other.
Qed.

Lemma not_due_after_update f i t row :
  (∀ j, ¬ tip_due (f j)) →
  row ∈ fetchPendingTips (update_where_id f i t) → row ∈ fetchPendingTips t.
Proof.
  intros Hf. rewrite !elem_of_fetchPendingTips_iff.
  intros (j' & (j & Hj & ->)%elem_of_update_where_id & Hd & ->).
  case_decide as Hi; [by apply Hf in Hd|]. by exists j.
Qed.

(** X5.  No statement of the script makes a tip due: after any sequence of
    claims (under any locks), [markDownloaded], [markError], [markPending]
    and [markTipSent], every row that [fetchPendingTips] returns was
    already returned by it before the sequence.  A job gets into the queue
    of tips only by what is written from outside the script (the analysis
    that sets [processed] or [parsed] and the tip). *)
Theorem script_makes_no_tip_due ops t row :
  Forall script_op ops →
  row ∈ fetchPendingTips (run ops t) → row ∈ fetchPendingTips t.
Proof.
  intros Hops. revert t.
  induction Hops as [|o ops Ho Hops IH]; intros t; [done|].
  simpl. intros Hrow%IH.
  destruct o as [locked|i p|i|i|i|i code user]; simpl in Hrow.
  - unfold getPendingMatch in Hrow. destruct (highest _); [|done].
    simpl in Hrow. revert Hrow. apply not_due_after_update.
    intros k ([Hs|Hs] & _); discriminate Hs.
  - revert Hrow. apply not_due_after_update.
    intros k ([Hs|Hs] & _); discriminate Hs.
  - revert Hrow. apply not_due_after_update.
    intros k ([Hs|Hs] & _); discriminate Hs.
  - revert Hrow. apply not_due_after_update.
    intros k ([Hs|Hs] & _); discriminate Hs.
  - revert Hrow. apply not_due_after_update.
    intros k ([Hs|Hs] & _); discriminate Hs.
  - destruct Ho.
Qed.

Lemma script_makes_no_tip_due_witness :
  tip_row_of Notifier.friend_job
  ∈ fetchPendingTips [Notifier.blocked_job; Notifier.friend_job;
                      new_job 9 "CSGO-b" "76561198000000002"].
Proof.
  apply (script_makes_no_tip_due
           [OpClaim []; OpMarkError 9; OpMarkTipSent 3; OpMarkPending 9]).
  - repeat constructor.
  - vm_compute. apply list_elem_of_singleton. reflexivity.
Defined.

End TipFacts.

(** ** The resolver *)

Section SearchFacts.
Import Js Resolver SearchSpec.

Lemma existsb_queue_app maxDepth (q1 q2 : list (value * nat)) :
  existsb (λ e, findable maxDepth e.2 e.1) (q1 ++ q2)
  = existsb (λ e, findable maxDepth e.2 e.1) q1
    || existsb (λ e, findable maxDepth e.2 e.1) q2.
Proof. apply existsb_app. Qed.

Lemma existsb_children {A} maxDepth depth (f : A → value) (l : list A) :
  existsb (λ e, findable maxDepth e.2 e.1) ((λ x, (f x, depth)) <$> l)
  = existsb (λ x, findable maxDepth depth (f x)) l.
Proof.
  induction l as [|x l IH]; [done|].
  rewrite fmap_cons. cbn [existsb fst snd]. by rewrite IH.
Qed.

(** What the loop returns is [null] or a string that contains the marker. *)
Lemma search_sound maxDepth fuel : ∀ queue,
  search fuel maxDepth queue = VNull
  ∨ ∃ s, search fuel maxDepth queue = VStr s ∧ includes ".dem.bz2" s = true.
Proof.
  induction fuel as [|fuel IH]; intros queue; [by left|].
  destruct queue as [|[node depth] rest]; [by left|]. cbn [search].
  destruct (negb (truthy node) || (maxDepth <? depth)%nat); [apply IH|].
  destruct node as [| | | |s|items|fields|]; try apply IH.
  destruct (includes ".dem.bz2" s) eqn:Hs; [|apply IH].
  right. by exists s.
Qed.

(** With fuel for every queued node, the loop returns a string exactly when
    some queued node is [findable]. *)
Lemma search_null_iff maxDepth fuel : ∀ queue,
  (queue_size queue ≤ fuel)%nat →
  search fuel maxDepth queue = VNull
  ↔ existsb (λ e, findable maxDepth e.2 e.1) queue = false.
Proof.
  induction fuel as [|fuel IH]; intros queue Hfuel.
  - destruct queue as [|[node depth] rest]; [done|].
    rewrite queue_size_cons in Hfuel. pose proof (size_pos node). simpl in *. lia.
  - destruct queue as [|[node depth] rest]; [done|].
    rewrite queue_size_cons in Hfuel. pose proof (size_pos node) as Hp.
    cbn [fst] in Hfuel. cbn [search existsb fst snd].
    assert (Hdepth : (depth <=? maxDepth)%nat = negb (maxDepth <? depth)%nat).
    { destruct (Nat.leb_spec depth maxDepth), (Nat.ltb_spec maxDepth depth);
        simpl; lia. }
    destruct node as [| |b|n|s|items|fields|]; cbn [findable truthy negb].
    + cbn [orb andb]. apply IH. lia.
    + cbn [orb andb]. apply IH. lia.
    + rewrite andb_false_r. cbn [orb].
      destruct (negb b || (maxDepth <? depth)%nat); apply IH; lia.
    + rewrite andb_false_r. cbn [orb].
      destruct (negb (negb (n =? 0)) || (maxDepth <? depth)%nat); apply IH; lia.
    + rewrite Hdepth.
      destruct (negb (String.eqb s "")), (maxDepth <? depth)%nat;
        cbn [negb orb andb]; try (apply IH; lia).
      destruct (includes ".dem.bz2" s); cbn [orb]; [done|]. apply IH. lia.
    + rewrite Hdepth. destruct (maxDepth <? depth)%nat; cbn [negb orb andb].
      * apply IH. lia.
      * rewrite IH.
        -- rewrite existsb_queue_app, (existsb_children _ _ (λ x, x)).
           by rewrite orb_comm.
        -- rewrite queue_size_app, (queue_size_depth (λ x, x) _ O).
           rewrite size_VArr in Hfuel. lia.
    + rewrite Hdepth. destruct (maxDepth <? depth)%nat; cbn [negb orb andb].
      * apply IH. lia.
      * rewrite IH.
        -- rewrite existsb_queue_app, (existsb_children _ _ snd).
           by rewrite orb_comm.
        -- rewrite queue_size_app, (queue_size_depth snd _ O).
           rewrite size_VObj in Hfuel. lia.
    + rewrite andb_false_r. cbn [orb].
      destruct (maxDepth <? depth)%nat; apply IH; simpl in Hfuel; lia.
Qed.

Lemma includes_nonempty needle s :
  needle ≠ "" → includes needle s = true → s ≠ "".
Proof. intros Hn Hs ->. destruct needle; [done|]. discriminate Hs. Qed.

(** The search on a string wrapped in [n] arrays, started at [depth]. *)
Lemma search_wrap s n : ∀ depth fuel,
  includes ".dem.bz2" s = true → (n < fuel)%nat →
  search fuel 6 [(wrap n (VStr s), depth)]
  = if (depth + n <=? 6)%nat then VStr s else VNull.
Proof.
  induction n as [|n IH]; intros depth fuel Hs Hfuel.
  - destruct fuel as [|fuel]; [lia|]. cbn [wrap search truthy].
    assert (String.eqb s "" = false) as ->.
    { apply String.eqb_neq. by apply (includes_nonempty ".dem.bz2"). }
    rewrite Hs, Nat.add_0_r. cbn [negb orb].
    destruct (Nat.ltb_spec 6 depth), (Nat.leb_spec depth 6); try lia; [|done].
    by destruct fuel.
  - destruct fuel as [|fuel]; [lia|]. cbn [wrap search truthy negb orb].
    destruct (Nat.ltb_spec 6 depth).
    + destruct (Nat.leb_spec (depth + S n) 6); [lia|]. by destruct fuel.
    + cbn [app fmap list_fmap]. rewrite IH by (done || lia).
      by replace (S depth + n)%nat with (depth + S n)%nat by lia.
Qed.

(** X7.  [findReplayUrlInObject] returns either [null] or a string that
    contains [.dem.bz2]; it returns a string exactly when such a string can
    be reached from the value through truthy arrays and objects without
    going deeper than level 6.  So a marked string inside [n] nested arrays
    is returned when [n] is at most 6 and missed when [n] is 7 or more. *)
Theorem findReplayUrlInObject_finds_within_depth v :
  (findReplayUrlInObject v = VNull
   ∨ ∃ s, findReplayUrlInObject v = VStr s ∧ includes ".dem.bz2" s = true)
  ∧ (findReplayUrlInObject v = VNull ↔ findable 6 0 v = false)
  ∧ (∀ s n, includes ".dem.bz2" s = true →
            findReplayUrlInObject (wrap n (VStr s))
            = if (n <=? 6)%nat then VStr s else VNull).
Proof.
  unfold findReplayUrlInObject. split_and!.
  - apply search_sound.
  - rewrite search_null_iff.
    + cbn [existsb fst snd]. by rewrite orb_false_r.
    + rewrite queue_size_cons. cbn [fst queue_size foldr]. lia.
  - intros s n Hs. rewrite search_wrap; [done|done|].
    clear. induction n as [|n IH]; simpl in *; lia.
Qed.

End SearchFacts.

Section ResolverShapeFacts.
Import Js Resolver SearchSpec.

Lemma includes_app_r needle a b :
  includes needle b = true → includes needle (a +:+ b) = true.
Proof.
  intros Hb. induction a as [|c a IH]; [done|].
  change (includes needle (String c a +:+ b))
    with (String.prefix needle (String c (a +:+ b)) || includes needle (a +:+ b)).
  rewrite IH. apply orb_true_r.
Qed.

Lemma includes_self needle : includes needle needle = true.
Proof.
  destruct needle as [|c needle]; [done|].
  cbn [includes]. assert (String.prefix (String c needle) (String c needle) = true) as ->;
    [|done].
  generalize (String c needle). intros s. induction s as [|d s IH]; [done|].
  simpl. by destruct (Ascii.ascii_dec d d).
Qed.

Lemma prefix_app a b : String.prefix a (a +:+ b) = true.
Proof.
  induction a as [|c a IH]; [by destruct b|].
  simpl. by destruct (Ascii.ascii_dec c c).
Qed.

Lemma nonempty_string_truthy v : nonempty_string v = true → truthy v = true.
Proof. by destruct v. Qed.

(** X8.  Whatever the response, [findReplayUrl] gives [null], [undefined]
    or a non-empty string, so the cycle's test [!replayUrl] is false exactly
    when a URL was found; and on an object response a string it gives is one
    of the eight candidates. *)
Theorem findReplayUrl_result_shape matchList :
  (findReplayUrl matchList = VNull
   ∨ findReplayUrl matchList = VUndefined
   ∨ ∃ url, findReplayUrl matchList = VStr url ∧ url ≠ "")
  ∧ truthy (findReplayUrl matchList) = nonempty_string (findReplayUrl matchList)
  ∧ (∀ url, findReplayUrl matchList = VStr url →
            VStr url ∈ directCandidates matchList
                       ++ [buildReplayUrl matchList;
                           findReplayUrlInObject matchList]).
Proof.
  assert (Hshape : ∀ l, findCandidate l = VUndefined
                        ∨ ∃ url, findCandidate l = VStr url ∧ url ≠ ""
                                 ∧ VStr url ∈ l).
  { intros l. unfold findCandidate.
    destruct (List.find nonempty_string l) as [v|] eqn:Hf; [|by left].
    apply find_some in Hf as [Hin Hv]. right.
    destruct v as [| | | |s| | |]; try discriminate Hv.
    exists s. split; [done|]. split; [|by apply list_elem_of_In].
    intros ->. discriminate Hv. }
  unfold findReplayUrl.
  destruct (negb (truthy matchList) || negb (typeof_object matchList)).
  { split; [by left|]. split; [done|]. by intros url [=]. }
  match goal with |- context [findCandidate ?l] => destruct (Hshape l) as [He|He] end.
  - rewrite He. split; [by right; left|]. split; [done|]. by intros url [=].
  - destruct He as (url & He & Hne & Hin). rewrite He. split_and!.
    + right. right. by exists url.
    + simpl. by destruct url.
    + by intros url' [= <-].
Qed.

(** X9.  For a response that is neither [null] nor [undefined] (on those
    the function throws), a URL derived by [buildReplayUrl] starts with
    [http://replay] and contains [.dem.bz2]; none is derived when the
    round-stats array is empty, or when [server_ip] or [tv_port] of the
    watchable match info is the number 0 (a falsy value counts as
    missing). *)
Theorem buildReplayUrl_shape matchList :
  matchList ≠ VNull → matchList ≠ VUndefined →
  (buildReplayUrl matchList = VNull
   ∨ ∃ url, buildReplayUrl matchList = VStr url
            ∧ String.prefix "http://replay" url = true
            ∧ includes ".dem.bz2" url = true)
  ∧ (get matchList k_round_stats_all = VArr [] → buildReplayUrl matchList = VNull)
  ∧ (∀ info,
       truthy info = true →
       get matchList k_watchablematchinfo = info →
       get info k_server_ip = VNum 0 ∨ get info k_tv_port = VNum 0 →
       buildReplayUrl matchList = VNull).
Proof.
  intros _ _. split_and!.
  - unfold buildReplayUrl.
    destruct (negb _ || negb _ || negb _); [by left|]. right.
    eexists. split; [reflexivity|]. split; [apply prefix_app|].
    repeat apply includes_app_r. apply includes_self.
  - intros Hr. unfold buildReplayUrl, lastRoundOf. rewrite Hr.
    cbn [or_else truthy lastOrNull last default get]. by rewrite !orb_true_r.
  - intros info Hinfo Hg Hzero. unfold buildReplayUrl. rewrite Hg.
    unfold or_else. rewrite Hinfo.
    destruct Hzero as [-> | ->]; cbn [truthy Z.eqb negb orb];
      by rewrite ?orb_true_r.
Qed.

Lemma buildReplayUrl_shape_witness :
  buildReplayUrl derived_only_response = VNull
  ∨ ∃ url, buildReplayUrl derived_only_response = VStr url
           ∧ String.prefix "http://replay" url = true
           ∧ includes ".dem.bz2" url = true.
Proof.
  refine (proj1 (buildReplayUrl_shape derived_only_response _ _));
    discriminate.
Defined.

Lemma fill_zeros n : fill n "0" "0" = zeros n ∧ fill n "0" "" = zeros n.
Proof.
  induction n as [|n [IH1 IH2]]; [done|].
  cbn [fill zeros]. rewrite IH2. done.
Qed.

(** X10.  The padded reservation segment is the text of the id with only
    zeros put in front of it, as many as the text is short of 21
    characters: the text itself is never changed. *)
Theorem paddedReservation_keeps_text reservationId :
  paddedReservation reservationId
  = zeros (21 - String.length (to_string reservationId))
    +:+ to_string reservationId.
Proof.
  unfold paddedReservation, padStart.
  destruct (decide (21 ≤ String.length (to_string reservationId))%nat) as [Hlen|Hlen].
  - by replace (21 - _)%nat with O by lia.
  - rewrite decide_False by done. by rewrite (proj1 (fill_zeros _)).
Qed.

End ResolverShapeFacts.

(** ** The download *)

Section DownloadRunFacts.
Import Errors Download DownloadSpec.






(** X13.  A call of [downloadReplay] waits at most five times and at most
    45 seconds in all, whatever the network does. *)
Theorem downloadReplay_wait_bound net :
  (length (sleeps (downloadReplay net).2) ≤ 5)%nat
  ∧ 0 ≤ totalWait (downloadReplay net).2 ≤ 45000.
Proof.
  destruct (attempts_shape net maxAttempts 1) as (n & Hn & _ & _ & Hs); [done|].
  unfold totalWait, downloadReplay. rewrite Hs. unfold maxAttempts in Hn.
  do 7 (destruct n as [|n]; [vm_compute; split; [lia|split; discriminate]|]).
  lia.
Qed.

End DownloadRunFacts.

(** ** The download cycle *)

Section CycleFacts.
Import JobStore Errors Download Orchestrator.


(** How the [try] block can end. *)
Lemma tryBody_cases cfg cy st row t :
  (∃ log, tryBody cfg cy st row t = (Completed (markPending (row_id row) t), log))
  ∨ (∃ log, tryBody cfg cy st row t
            = (Completed (markDownloaded (row_id row) (outputFileOf cfg row) t), log))
  ∨ (∃ e log, tryBody cfg cy st row t = (Failed e, log)).
Proof.
  unfold tryBody. destruct (coolingDown st cy row); [left; eauto|].
  destruct (matchResult cy (row_share_code row)) as [matchList|e];
    [|right; right; eauto].
  destruct (negb (Js.truthy (Resolver.findReplayUrl matchList))); [left; eauto|].
  destruct (mkdirResult cy) as [e|]; [right; right; eauto|].
  destruct (downloadReplay _) as [[|e] effects]; [right; left|right; right]; eauto.
Qed.






(** X15.  With unique ids, a cycle that claims a row whose cooldown deadline
    has not passed changes nothing: the row goes back to [pending], so the
    table and the cooldown map are as before the cycle, and the coordinator
    is not asked and nothing is downloaded. *)
Theorem processPending_cooldown_changes_nothing cfg cy st row t :
  NoDup (id <$> db st) →
  isProcessing st = false → gcReady st = true →
  getPendingMatch (locked cy) (db st) = (Some row, t) →
  coolingDown st cy row = true →
  processPending cfg cy st = (st, []).
Proof.
  intros Hnd Hp Hg Hc Hcool. unfold processPending.
  rewrite Hp, Hg, Hc. cbn [orb negb]. unfold tryBody. rewrite Hcool.
  rewrite (markPending_undoes_claim _ _ _ _ Hnd Hc).
  destruct st. simpl in *. by subst.
Qed.

(** X16.  With unique ids, a cycle in which the coordinator answers but no
    replay URL is found in the answer puts the row back to [pending]: table
    and cooldown map are as before the cycle, nothing is downloaded, and the
    only thing done is the request to the coordinator. *)
Theorem processPending_url_miss_requeues cfg cy st row t matchList :
  NoDup (id <$> db st) →
  isProcessing st = false → gcReady st = true →
  getPendingMatch (locked cy) (db st) = (Some row, t) →
  coolingDown st cy row = false →
  matchResult cy (row_share_code row) = inl matchList →
  Js.truthy (Resolver.findReplayUrl matchList) = false →
  processPending cfg cy st = (st, [ERequestMatch (row_share_code row)]).
Proof.
  intros Hnd Hp Hg Hc Hcool Hm Hurl. unfold processPending.
  rewrite Hp, Hg, Hc. cbn [orb negb]. unfold tryBody.
  rewrite Hcool, Hm, Hurl. cbn [negb].
  rewrite (markPending_undoes_claim _ _ _ _ Hnd Hc).
  destruct st. simpl in *. by subst.
Qed.

End CycleFacts.

Section CycleRunFacts.
Import JobStore Errors Download Orchestrator CycleSamples.

Lemma processPending_cooldown_changes_nothing_witness :
  processPending default_config
                 (cycle_with (inl Resolver.sample_response) always_502)
                 cooling_state
  = (cooling_state, []).
Proof.
  refine (processPending_cooldown_changes_nothing
            default_config
            (cycle_with (inl Resolver.sample_response) always_502)
            cooling_state row7 claimed7 _ _ _ _ _).
  - decide_by_computation.
  - reflexivity.
  - reflexivity.
  - reflexivity.
  - by vm_compute.
Defined.

Lemma processPending_url_miss_requeues_witness :
  processPending default_config (cycle_with (inl empty_answer) always_502)
                 one_job_state
  = (one_job_state, [ERequestMatch "CSGO-share"]).
Proof.
  refine (processPending_url_miss_requeues
            default_config (cycle_with (inl empty_answer) always_502)
            one_job_state row7 claimed7 empty_answer _ _ _ _ _ _ _).
  - decide_by_computation.
  - reflexivity.
  - reflexivity.
  - reflexivity.
  - by vm_compute.
  - reflexivity.
  - by vm_compute.
Defined.

(** X17.  When the download returns, every row with the claimed id is
    [downloaded] with [file_path] set to [<downloadsDir>/match_<id>.dem],
    the cooldown map is untouched, and the user is sent the completion
    message exactly when [canMessageUser] allows it. *)
Theorem processPending_success_records_file cfg cy st row t matchList :
  isProcessing st = false → gcReady st = true →
  getPendingMatch (locked cy) (db st) = (Some row, t) →
  coolingDown st cy row = false →
  matchResult cy (row_share_code row) = inl matchList →
  Js.truthy (Resolver.findReplayUrl matchList) = true →
  mkdirResult cy = None →
  (downloadReplay
     (net cy (Js.to_string (Resolver.findReplayUrl matchList)))).1 = Returned →
  let result := processPending cfg cy st in
  db result.1 = markDownloaded (row_id row) (outputFileOf cfg row) t
  ∧ (∀ j, j ∈ db result.1 → id j = row_id row →
          status j = downloaded ∧ file_path j = Some (outputFileOf cfg row))
  ∧ retryAfterByMatchId result.1 = retryAfterByMatchId st
  ∧ ((∃ e, EMessage e ∈ result.2) ↔
     Notifier.canMessageUser (relationships cy) (client cy)
                             (user_steam_id row) = true).
Proof.
  intros Hp Hg Hc Hcool Hm Hurl Hmk Hdl result.
  assert (Hres : result
    = (mkState false true (retryAfterByMatchId st)
               (markDownloaded (row_id row) (outputFileOf cfg row) t),
       [ERequestMatch (row_share_code row);
        EDownload (Js.to_string (Resolver.findReplayUrl matchList))
                  (outputFileOf cfg row)
                  (downloadReplay
                     (net cy (Js.to_string (Resolver.findReplayUrl matchList)))).2]
       ++ (EMessage <$> Notifier.sendDownloadMessage
                          (relationships cy) (client cy) (sendThrows cy)
                          (user_steam_id row) (row_id row)))).
  { unfold result, processPending. rewrite Hp, Hg, Hc. cbn [orb negb].
    unfold tryBody. rewrite Hcool, Hm, Hurl, Hmk. cbn [negb].
    destruct (downloadReplay _) as [outcome effects]. cbn [fst snd] in *.
    by subst outcome. }
  rewrite Hres. cbn [fst snd db retryAfterByMatchId]. split_and!; try done.
  - intros j (k & Hk & ->)%elem_of_update_where_id Hid.
    case_decide as Hki; [done|]. by destruct Hki.
  - unfold Notifier.sendDownloadMessage.
    destruct (Notifier.canMessageUser _ _ _); cbn [negb].
    + split; [done|]. intros _. eexists.
      apply elem_of_app. right. rewrite list_fmap_singleton.
      apply elem_of_cons. by left.
    + split; [|done]. intros [e He].
      rewrite fmap_nil, app_nil_r in He.
      repeat (apply elem_of_cons in He as [[=]|He]). by apply elem_of_nil in He.
Qed.

Lemma processPending_success_records_file_witness :
  let result := processPending default_config
                  (cycle_with (inl Resolver.sample_response) three_502_then_ok)
                  one_job_state in
  db result.1 = markDownloaded 7 "/srv/retake/downloads/match_7.dem" claimed7.
Proof.
  refine (proj1 (processPending_success_records_file
                   default_config
                   (cycle_with (inl Resolver.sample_response) three_502_then_ok)
                   one_job_state row7 claimed7 Resolver.sample_response
                   _ _ _ _ _ _ _ _)).
  - reflexivity.
  - reflexivity.
  - reflexivity.
  - by vm_compute.
  - reflexivity.
  - by vm_compute.
  - reflexivity.
  - by vm_compute.
Defined.

(** X18.  After a cycle has put a job back with a cooldown, a later cycle
    that claims under the same locks and reads a clock before the deadline
    (and not before the epoch) changes nothing and contacts nobody; a cycle
    that reads a clock at or after the deadline asks the coordinator
    again. *)
Theorem cooldown_holds_until_deadline cfg cy1 cy2 st row t e log :
  NoDup (id <$> db st) →
  isProcessing st = false → gcReady st = true →
  getPendingMatch (locked cy1) (db st) = (Some row, t) →
  tryBody cfg cy1 st row t = (Failed e, log) →
  Js.includes marker502 (message_of e) = true →
  locked cy2 = locked cy1 →
  let deadline := nowAtFailure cy1 + RETRY_COOLDOWN_MS cfg in
  let st1 := (processPending cfg cy1 st).1 in
  (0 ≤ nowAtCheck cy2 < deadline → processPending cfg cy2 st1 = (st1, []))
  ∧ (deadline ≤ nowAtCheck cy2 →
     ∃ later, (processPending cfg cy2 st1).2
              = ERequestMatch (row_share_code row) :: later).
Proof.
  intros Hnd Hp Hg Hc Hb Hmark Hlock deadline st1.
  assert (Hst1 : st1 = mkState false true
                         (<[row_id row := deadline]> (retryAfterByMatchId st))
                         (db st)).
  { unfold st1. rewrite (processPending_failed _ _ _ _ _ _ _ Hp Hg Hc Hb), Hmark.
    cbn [fst]. by rewrite (markPending_undoes_claim _ _ _ _ Hnd Hc). }
  clearbody st1. subst st1. clear Hmark Hb.
  assert (Hc2 : getPendingMatch (locked cy2) (db st) = (Some row, t))
    by by rewrite Hlock.
  split.
  - intros Hnow. unfold processPending.
    cbn [isProcessing gcReady orb negb db]. rewrite Hc2.
    unfold tryBody, coolingDown. cbn [retryAfterByMatchId].
    rewrite lookup_insert_eq.
    assert ((nowAtCheck cy2 <? deadline) = true) as -> by (apply Z.ltb_lt; lia).
    assert ((deadline =? 0) = false) as -> by (apply Z.eqb_neq; lia).
    cbn [negb andb]. by rewrite (markPending_undoes_claim _ _ _ _ Hnd Hc).
  - intros Hnow. unfold processPending.
    cbn [isProcessing gcReady orb negb db]. rewrite Hc2.
    unfold tryBody, coolingDown. cbn [retryAfterByMatchId].
    rewrite lookup_insert_eq.
    assert ((nowAtCheck cy2 <? deadline) = false) as -> by (apply Z.ltb_ge; lia).
    rewrite andb_false_r.
    destruct (matchResult cy2 (row_share_code row)) as [matchList|e2].
    + destruct (negb (Js.truthy _)); [eexists; reflexivity|].
      destruct (mkdirResult cy2);
        [unfold onFailure; destruct (Js.includes _ _); eexists; reflexivity|].
      destruct (downloadReplay _) as [[|e3] effects].
      * eexists; reflexivity.
      * unfold onFailure. destruct (Js.includes _ _); eexists; reflexivity.
    + unfold onFailure. destruct (Js.includes _ _); eexists; reflexivity.
Qed.

Lemma cooldown_holds_until_deadline_witness :
  let cy1 := cycle_with (inl Resolver.sample_response) always_502 in
  let st1 := (processPending default_config cy1 one_job_state).1 in
  (0 ≤ 5000 < 2000 + 300000 →
   processPending default_config
                  (cycle_at 5000 6000 (inl Resolver.sample_response) always_502) st1
   = (st1, []))
  ∧ (2000 + 300000 ≤ 5000 →
     ∃ later,
       (processPending default_config
                       (cycle_at 5000 6000 (inl Resolver.sample_response) always_502)
                       st1).2
       = ERequestMatch "CSGO-share" :: later).
Proof.
  refine (cooldown_holds_until_deadline
            default_config
            (cycle_with (inl Resolver.sample_response) always_502)
            (cycle_at 5000 6000 (inl Resolver.sample_response) always_502)
            one_job_state row7 claimed7 (statusError 502)
            [ERequestMatch "CSGO-share";
             EDownload "http://direct.example/demo.dem.bz2"
                       "/srv/retake/downloads/match_7.dem"
                       (downloadReplay always_502).2]
            _ _ _ _ _ _ _).
  - decide_by_computation.
  - reflexivity.
  - reflexivity.
  - reflexivity.
  - by vm_compute.
  - by vm_compute.
  - reflexivity.
Defined.

End CycleRunFacts.

(** ** Runs of the coordinator client *)

Section CoordinatorRunFacts.
Import Errors Coordinator CoordinatorRuns.

Lemma settle_all_settled call s s0 (ids : list nat) : ∀ p,
  p !! call = Some s0 → s0 ≠ Pending →
  foldl (λ p c, settle c s p) p ids !! call = Some s0.
Proof.
  induction ids as [|c ids IH]; intros p Hp Hs; [done|].
  simpl. apply IH; [|done]. by apply settle_lookup_settled.
Qed.

Lemma settle_all_pending call s (ids : list nat) : ∀ p,
  s ≠ Pending → p !! call = Some Pending → call ∈ ids →
  foldl (λ p c, settle c s p) p ids !! call = Some s.
Proof.
  induction ids as [|c ids IH]; intros p Hs Hp Hin; [by apply elem_of_nil in Hin|].
  simpl. destruct (decide (c = call)) as [->|Hne].
  - apply settle_all_settled; [|done]. by apply settle_lookup_pending.
  - apply IH; [done| |].
    + by rewrite settle_lookup_other.
    + apply elem_of_cons in Hin as [->|Hin]; [done|done].
Qed.

Lemma expire_others call (due : list (nat * Z)) : ∀ p,
  (∀ t, t ∈ due → t.1 ≠ call) →
  foldl (λ p t, settle t.1 (Rejected timeoutError) p) p due !! call = p !! call.
Proof.
  induction due as [|t due IH]; intros p Hdue; [done|].
  simpl. rewrite IH.
  - apply settle_lookup_other, Hdue, elem_of_cons. by left.
  - intros t' Ht'. apply Hdue, elem_of_cons. by right.
Qed.

Lemma clear_all_timers_subset (ids : list nat) : ∀ (ts : list (nat * Z)) t,
  t ∈ foldl (λ ts c, clearTimeout c ts) ts ids → t ∈ ts.
Proof.
  induction ids as [|c ids IH]; intros ts t; [done|].
  simpl. intros Ht. apply IH in Ht.
  by apply list_elem_of_filter in Ht as [_ Ht].
Qed.

Lemma clear_all_timers call (ids : list nat) : ∀ (ts : list (nat * Z)) t,
  call ∈ ids → t ∈ foldl (λ ts c, clearTimeout c ts) ts ids → t.1 ≠ call.
Proof.
  induction ids as [|c ids IH]; intros ts t Hin; [by apply elem_of_nil in Hin|].
  simpl. intros Ht. apply elem_of_cons in Hin as [<-|Hin]; [|by eapply IH].
  apply clear_all_timers_subset in Ht.
  by apply list_elem_of_filter in Ht as [Hne _].
Qed.

Lemma step_numbered w e : numbered w → numbered (step w e).
Proof.
  intros [Hl Ht]. destruct e as [[err|]|v|ms]; simpl.
  - split; cbn [listeners timers calls].
    + intros l [Hne Hin]%list_elem_of_filter.
      apply elem_of_app in Hin as [Hin|Hin]; [specialize (Hl l Hin); lia|].
      apply elem_of_cons in Hin as [->|[]%elem_of_nil]. done.
    + intros t [Hne Hin]%list_elem_of_filter.
      apply elem_of_app in Hin as [Hin|Hin]; [specialize (Ht t Hin); lia|].
      apply elem_of_cons in Hin as [->|[]%elem_of_nil]. done.
  - split; cbn [listeners timers calls].
    + intros l [Hin|Hin]%elem_of_app; [specialize (Hl l Hin); lia|].
      apply elem_of_cons in Hin as [->|[]%elem_of_nil]. lia.
    + intros t [Hin|Hin]%elem_of_app; [specialize (Ht t Hin); lia|].
      apply elem_of_cons in Hin as [->|[]%elem_of_nil]. simpl. lia.
  - split; cbn [listeners timers calls].
    + by intros l ?%elem_of_nil.
    + intros t Hin. by apply Ht, (clear_all_timers_subset (listeners w)).
  - split; cbn [listeners timers calls]; [done|].
    intros t [_ Hin]%list_elem_of_filter. by apply Ht.
Qed.

Lemma after_numbered events : numbered (after events).
Proof.
  unfold after. assert (Hs : numbered start) by (split; by intros ? ?%elem_of_nil).
  revert Hs. generalize start. induction events as [|e events IH]; intros w Hw;
    [done|].
  simpl. by apply IH, step_numbered.
Qed.

Lemma step_calls w e : (calls w ≤ calls (step w e))%nat.
Proof. destruct e as [[err|]|v|ms]; simpl; lia. Qed.

Lemma step_keeps_settled w e call s :
  (call < calls w)%nat → promises w !! call = Some s → s ≠ Pending →
  promises (step w e) !! call = Some s.
Proof.
  intros Hlt Hp Hs. destruct e as [[err|]|v|ms]; simpl.
  - apply settle_lookup_settled; [|done]. rewrite lookup_insert_ne; [done|lia].
  - rewrite lookup_insert_ne; [done|lia].
  - by apply settle_all_settled.
  - by apply expire_settled.
Qed.

(** X19.  Once the promise of a call is resolved or rejected, nothing that
    happens later changes it: not a late ["matchList"] event, not the
    expiry of its timeout, not later calls. *)
Theorem settled_call_stays_settled before later call s :
  promises (after before) !! call = Some s → s ≠ Pending →
  (call < calls (after before))%nat →
  promises (after (before ++ later)) !! call = Some s.
Proof.
  unfold after. rewrite foldl_app. generalize (foldl step start before).
  induction later as [|e later IH]; intros w Hp Hs Hlt; [done|].
  simpl. apply IH; [by apply step_keeps_settled|done|].
  pose proof (step_calls w e). lia.
Qed.

Lemma settled_call_stays_settled_witness :
  promises (after ([Request None; Elapse 20000]
                   ++ [MatchList Js.VNull; Request None; Elapse 30000]))
           !! 0%nat
  = Some (Rejected timeoutError).
Proof.
  refine (settled_call_stays_settled
            [Request None; Elapse 20000]
            [MatchList Js.VNull; Request None; Elapse 30000]
            0 (Rejected timeoutError) _ _ _).
  - by vm_compute.
  - discriminate.
  - vm_compute. lia.
Defined.

(** X20.  In any state the process can be in, a call whose request was sent
    and that is answered by a ["matchList"] event less than 20 seconds later
    is resolved with that answer; its handler and every other handler are
    off the emitter and its timeout is cleared. *)
Theorem reply_in_time_resolves events matchList ms :
  0 ≤ ms < 20000 →
  let w := after events in
  let call := (requestMatch None w).1 in
  let w' := emitMatchList matchList (elapse ms (requestMatch None w).2) in
  promises w' !! call = Some (Resolved matchList)
  ∧ listeners w' = []
  ∧ (∀ t, t ∈ timers w' → t.1 ≠ call).
Proof.
  intros Hms w call w'. destruct (after_numbered events) as [Hl Ht].
  fold w in Hl, Ht.
  assert (call = calls w) as Hcall by done. clearbody call. subst call.
  split_and!.
  - unfold w', emitMatchList, elapse, requestMatch.
    cbn [promises listeners timers clock fst snd].
    apply settle_all_pending; [done| |].
    + rewrite expire_others; [apply lookup_insert_eq|].
      intros t [Hdue Hin]%list_elem_of_filter.
      apply elem_of_app in Hin as [Hin|Hin]; [specialize (Ht t Hin); lia|].
      apply elem_of_cons in Hin as [->|[]%elem_of_nil]. cbn [snd] in Hdue. lia.
    + apply elem_of_app. right. apply elem_of_cons. by left.
  - done.
  - intros t. unfold w', emitMatchList. cbn [timers].
    apply clear_all_timers. unfold elapse, requestMatch. cbn [listeners snd].
    apply elem_of_app. right. apply elem_of_cons. by left.
Qed.

Lemma reply_in_time_resolves_witness :
  promises (emitMatchList Resolver.sample_response
              (elapse 19999 (requestMatch None (after [])).2)) !! 0%nat
  = Some (Resolved Resolver.sample_response).
Proof.
  refine (proj1 (reply_in_time_resolves [] Resolver.sample_response 19999 _)).
  lia.
Defined.

(** X21.  In any state the process can be in, a call whose send throws is
    rejected with the thrown error and leaves the handlers on the emitter
    and the armed timeouts exactly as they were. *)
Theorem failed_send_leaves_no_trace events e :
  let w := after events in
  let w' := (requestMatch (Some e) w).2 in
  promises w' !! calls w = Some (Rejected e)
  ∧ listeners w' = listeners w
  ∧ timers w' = timers w
  ∧ clock w' = clock w.
Proof.
  intros w w'. destruct (after_numbered events) as [Hl Ht]. fold w in Hl, Ht.
  unfold w', requestMatch. cbn [promises listeners timers clock snd].
  split_and!.
  - apply settle_lookup_pending, lookup_insert_eq.
  - unfold removeListener. rewrite filter_app, filter_cons_False, filter_nil by auto.
    rewrite app_nil_r. induction (listeners w) as [|l ls IH]; [done|].
    rewrite filter_cons_True.
    + f_equal. apply IH. intros l' Hl'. apply Hl, elem_of_cons. by right.
    + assert (l < calls w)%nat by (apply Hl, elem_of_cons; by left). lia.
  - unfold clearTimeout. rewrite filter_app, filter_cons_False, filter_nil by auto.
    rewrite app_nil_r. induction (timers w) as [|t ts IH]; [done|].
    rewrite filter_cons_True.
    + f_equal. apply IH. intros t' Ht'. apply Ht, elem_of_cons. by right.
    + assert (t.1 < calls w)%nat by (apply Ht, elem_of_cons; by left). lia.
  - done.
Qed.

(** X22.  Answers are not matched to requests: after a call has timed out,
    an answer that arrives once the next call has been made resolves that
    next call, whichever request it answers; the timed-out call stays
    rejected and its stale handler is taken off by the event. *)
Theorem late_reply_resolves_next_call events matchList ms :
  20000 ≤ ms →
  let w := after events in
  let first := calls w in
  let second := S (calls w) in
  let w' := after (events ++ [Request None; Elapse ms; Request None;
                              MatchList matchList]) in
  promises w' !! first = Some (Rejected timeoutError)
  ∧ promises w' !! second = Some (Resolved matchList)
  ∧ listeners w' = [].
Proof.
  intros Hms w first second w'.
  assert (Hw' : w' = emitMatchList matchList
                       (requestMatch None
                          (elapse ms (requestMatch None w).2)).2).
  { unfold w', after. by rewrite foldl_app. }
  assert (Hrej : promises (elapse ms (requestMatch None w).2) !! first
                 = Some (Rejected timeoutError)).
  { unfold elapse, requestMatch. cbn [promises timers clock snd].
    apply expire_pending; [apply lookup_insert_eq|].
    apply list_elem_of_fmap. exists (calls w, clock w + 20000). split; [done|].
    apply list_elem_of_filter. split; [cbn [snd]; lia|].
    apply elem_of_app. right. apply elem_of_cons. by left. }
  assert (Hnext : calls (elapse ms (requestMatch None w).2) = second) by done.
  rewrite Hw'. unfold emitMatchList. cbn [promises listeners].
  split_and!; [| |done].
  - apply settle_all_settled; [|done].
    unfold requestMatch at 1. cbn [promises snd].
    rewrite lookup_insert_ne; [exact Hrej|]. rewrite Hnext. unfold first, second. lia.
  - apply settle_all_pending; [done| |].
    + unfold requestMatch at 1. cbn [promises snd].
      rewrite Hnext. apply lookup_insert_eq.
    + unfold requestMatch at 1. cbn [listeners snd]. rewrite Hnext.
      apply elem_of_app. right. apply elem_of_cons. by left.
Qed.

Lemma late_reply_resolves_next_call_witness :
  promises (after ([] ++ [Request None; Elapse 25000; Request None;
                          MatchList Resolver.sample_response])) !! 1%nat
  = Some (Resolved Resolver.sample_response).
Proof.
  refine (proj1 (proj2 (late_reply_resolves_next_call
                          [] Resolver.sample_response 25000 _))).
  lia.
Defined.

End CoordinatorRunFacts.

(** ** The tip batch *)

Section BatchFacts.
Import JobStore Notifier NotifierSpec.

Context (E : EFriendRelationship) (client : Client) (sendThrows : TipRow → bool).

Lemma sendRows_effect rows : ∀ t,
  sendRows E client sendThrows rows t
  = (foldl (λ t row, markTipSent (tip_id row) t) t
           (delivered E client sendThrows rows),
     rows ≫= entries E client sendThrows).
Proof.
  induction rows as [|r rows IH]; intros t; [done|].
  cbn [sendRows]. unfold delivered, entries at 1.
  rewrite bind_cons.
  destruct (canMessageUser E client (tip_steam_id r)) eqn:Hcan; cbn [negb].
  - destruct (sendThrows r) eqn:Hthrow.
    + rewrite IH. rewrite filter_cons_False; [done|]. intros [_ Hf]. congruence.
    + rewrite IH. by rewrite filter_cons_True.
  - rewrite IH. rewrite filter_cons_False; [done|]. intros [Hf _]. congruence.
Qed.

(** The table after marking a list of rows. *)
Lemma marked_fmap (rows : list TipRow) : ∀ t,
  foldl (λ t row, markTipSent (tip_id row) t) t rows
  = (λ j, if decide (id j ∈ tip_id <$> rows) then sent j else j) <$> t.
Proof.
  induction rows as [|r rows IH]; intros t.
  - cbn [foldl]. rewrite fmap_nil. rewrite <- (list_fmap_id t) at 1.
    apply list_fmap_ext. intros _ j _.
    destruct (decide (id j ∈ [])) as [H|H]; [by apply elem_of_nil in H|done].
  - cbn [foldl]. rewrite IH. unfold markTipSent, update_where_id.
    rewrite <- list_fmap_compose. apply list_fmap_ext. intros _ j _.
    rewrite fmap_cons. cbn [compose].
    destruct (decide (id j = tip_id r)) as [Hi|Hi]; cbn [id sent].
    + rewrite (decide_True (P := id j ∈ tip_id r :: _))
        by (apply elem_of_cons; auto).
      by destruct (decide (id j ∈ tip_id <$> rows)).
    + destruct (decide (id j ∈ tip_id <$> rows)) as [Hin|Hin].
      * by rewrite decide_True by (apply elem_of_cons; auto).
      * rewrite decide_False; [done|]. by intros [?|?]%elem_of_cons.
Qed.

Lemma sent_not_due j : ¬ tip_due (sent j).
Proof. by intros ([|] & _). Qed.

Lemma elem_of_delivered row rows :
  row ∈ delivered E client sendThrows rows ↔
  row ∈ rows ∧ canMessageUser E client (tip_steam_id row) = true
  ∧ sendThrows row = false.
Proof. unfold delivered. rewrite list_elem_of_filter. tauto. Qed.

(** What a batch that runs returns. *)
Lemma batch_result st :
  isSendingTips st = false → steamReady st = true →
  sendPendingMessages E client sendThrows st
  = (mkState false true
       ((λ j, if decide (id j ∈ tip_id <$> delivered E client sendThrows
                                             (fetchPendingTips (db st)))
              then sent j else j) <$> db st),
     fetchPendingTips (db st) ≫= entries E client sendThrows).
Proof.
  intros Hbusy Hready. unfold sendPendingMessages. rewrite Hbusy, Hready.
  cbn [orb negb]. rewrite sendRows_effect. by rewrite marked_fmap.
Qed.

(** The rows that are due after a batch. *)
Lemma due_after_batch st row :
  isSendingTips st = false → steamReady st = true →
  row ∈ fetchPendingTips (db (sendPendingMessages E client sendThrows st).1) ↔
  row ∈ fetchPendingTips (db st)
  ∧ tip_id row ∉ tip_id <$> delivered E client sendThrows (fetchPendingTips (db st)).
Proof.
  intros Hbusy Hready. rewrite batch_result by done. cbn [fst db].
  rewrite !elem_of_fetchPendingTips_iff. split.
  - intros (j' & (j & -> & Hj)%list_elem_of_fmap & Hd & ->).
    case_decide as Hin; [by apply sent_not_due in Hd|].
    split; [by exists j|done].
  - intros ((j & Hj & Hd & ->) & Hout). exists j. split; [|done].
    apply list_elem_of_fmap. exists j. split; [|done].
    by rewrite decide_False.
Qed.

(** X23.  A batch that runs (no other batch in progress, Steam logged on)
    rewrites the table in one way: each job whose id is the id of a fetched
    row with a messageable recipient and a send that did not throw gets
    status [notified] and [tip_sent = true]; every other job is left as it
    is.  Its log is, row by row in ascending id, nothing for a recipient
    that cannot be messaged, the send alone when it throws, and the send
    followed by [markTipSent] otherwise.  The busy flag is released.  A
    batch that finds another one in progress, or Steam not logged on, does
    nothing. *)
Theorem sendPendingMessages_batch st :
  let rows := fetchPendingTips (db st) in
  let result := sendPendingMessages E client sendThrows st in
  (isSendingTips st = true ∨ steamReady st = false → result = (st, []))
  ∧ (isSendingTips st = false ∧ steamReady st = true →
     result.1 = mkState false true
                  ((λ j, if decide (id j ∈ tip_id <$> delivered E client sendThrows rows)
                         then sent j else j) <$> db st)
     ∧ result.2 = rows ≫= entries E client sendThrows).
Proof.
  cbn zeta. unfold sendPendingMessages. split.
  - intros [-> | ->]; [done|]. by rewrite orb_true_r.
  - intros [Hbusy Hready]. fold (sendPendingMessages E client sendThrows st).
    by rewrite batch_result.
Qed.

(** X24.  After a batch that runs, the rows that [fetchPendingTips] returns
    are the rows of the batch whose id was not marked: a tip that was sent
    is not fetched again, and no row becomes due by a batch. *)
Theorem sendPendingMessages_leaves_undelivered st row :
  isSendingTips st = false → steamReady st = true →
  let result := sendPendingMessages E client sendThrows st in
  (row ∈ fetchPendingTips (db result.1) ↔
   row ∈ fetchPendingTips (db st) ∧ EMarkTipSent (tip_id row) ∉ result.2).
Proof.
  intros Hbusy Hready. cbn zeta. rewrite due_after_batch by done.
  apply and_iff_compat_l. apply not_iff_compat.
  rewrite batch_result by done. cbn [snd].
  rewrite list_elem_of_fmap, list_elem_of_bind. split.
  - intros (r & Hid & (Hr & Hcan & Hthrow)%elem_of_delivered).
    exists r. split; [|done]. unfold entries. rewrite Hcan, Hthrow, Hid.
    apply elem_of_cons. right. apply elem_of_cons. by left.
  - intros (r & Hin & Hr). unfold entries in Hin.
    destruct (canMessageUser E client (tip_steam_id r)) eqn:Hcan;
      [|by apply elem_of_nil in Hin].
    destruct (sendThrows r) eqn:Hthrow.
    + by apply elem_of_cons in Hin as [[=]|?%elem_of_nil].
    + apply elem_of_cons in Hin as [[=]|Hin].
      apply elem_of_cons in Hin as [[= Hid]|?%elem_of_nil]; [|done].
      exists r. split; [done|]. by apply elem_of_delivered.
Qed.

(** X25.  When every due tip has a recipient that can be messaged and no
    send throws, the batch sends them all: no tip is due afterwards. *)
Theorem sendPendingMessages_clears_queue st :
  isSendingTips st = false → steamReady st = true →
  (∀ row, row ∈ fetchPendingTips (db st) →
          canMessageUser E client (tip_steam_id row) = true
          ∧ sendThrows row = false) →
  fetchPendingTips (db (sendPendingMessages E client sendThrows st).1) = [].
Proof.
  intros Hbusy Hready Hall. apply elem_of_nil_inv. intros row Hrow.
  apply due_after_batch in Hrow as [Hrow Hout]; [|done..].
  apply Hout, list_elem_of_fmap. exists row. split; [done|].
  apply elem_of_delivered. destruct (Hall row Hrow). by split_and!.
Qed.

(** X26.  In a table with unique ids, a due tip whose recipient cannot be
    messaged, or whose send throws, is still due after the batch, with the
    job unchanged: it is tried again by the next batch. *)
Theorem sendPendingMessages_failed_tip_stays_due st j :
  isSendingTips st = false → steamReady st = true →
  NoDup (id <$> db st) →
  j ∈ db st → tip_due j →
  canMessageUser E client (user_id j) = false ∨ sendThrows (tip_row_of j) = true →
  let st' := (sendPendingMessages E client sendThrows st).1 in
  j ∈ db st' ∧ tip_row_of j ∈ fetchPendingTips (db st').
Proof.
  intros Hbusy Hready Hnodup Hj Hd Hfail. cbn zeta.
  assert (Hout : id j ∉ tip_id <$> delivered E client sendThrows
                                     (fetchPendingTips (db st))).
  { intros (r & Hid & (Hr & Hcan & Hthrow)%elem_of_delivered)%list_elem_of_fmap.
    apply elem_of_fetchPendingTips_iff in Hr as (k & Hk & _ & ->).
    cbn [tip_row_of tip_id] in Hid.
    assert (k = j) as ->.
    { apply list_elem_of_lookup in Hk as [a Ha], Hj as [b Hb].
      assert (a = b) as ->; [|congruence].
      eapply NoDup_lookup; [exact Hnodup| |];
        rewrite list_lookup_fmap; [by rewrite Ha|rewrite Hb; cbn; congruence]. }
    cbn [tip_row_of tip_steam_id] in Hcan. destruct Hfail; congruence. }
  split.
  - rewrite batch_result by done. cbn [fst db].
    apply list_elem_of_fmap. exists j. split; [|done]. by rewrite decide_False.
  - apply due_after_batch; [done..|]. split; [|done].
    apply elem_of_fetchPendingTips_iff. by exists j.
Qed.

End BatchFacts.

Section BatchRuns.
Import JobStore Notifier NotifierSpec.

Lemma sendPendingMessages_leaves_undelivered_witness :
  let result := sendPendingMessages steam_user_relationships sample_client
                                    (λ _, false) sample_state in
  tip_row_of blocked_job ∈ fetchPendingTips (db result.1) ↔
  tip_row_of blocked_job ∈ fetchPendingTips (db sample_state)
  ∧ EMarkTipSent (tip_id (tip_row_of blocked_job)) ∉ result.2.
Proof.
  apply (sendPendingMessages_leaves_undelivered
           steam_user_relationships sample_client (λ _, false) sample_state);
    reflexivity.
Defined.

Lemma sendPendingMessages_clears_queue_witness :
  fetchPendingTips
    (db (sendPendingMessages steam_user_relationships sample_client (λ _, false)
                             (mkState false true [friend_job])).1) = [].
Proof.
  apply sendPendingMessages_clears_queue; [reflexivity..|].
  intros row Hrow. vm_compute in Hrow.
  apply list_elem_of_singleton in Hrow as ->. by vm_compute.
Defined.

Lemma sendPendingMessages_failed_tip_stays_due_witness :
  let st' := (sendPendingMessages steam_user_relationships sample_client
                                  always_throws sample_state).1 in
  friend_job ∈ db st' ∧ tip_row_of friend_job ∈ fetchPendingTips (db st').
Proof.
  apply sendPendingMessages_failed_tip_stays_due; [reflexivity..| | | |].
  - decide_by_computation.
  - decide_by_computation.
  - decide_by_computation.
  - by right.
Defined.

End BatchRuns.


(** ** The pollers and the event handlers *)

Section LifecycleFacts.
Import Lifecycle.

Context (requestRecipient : Z).

Lemma occurrences_app a l1 l2 :
  occurrences a (l1 ++ l2) = (occurrences a l1 + occurrences a l2)%nat.
Proof. unfold occurrences. by rewrite filter_app, length_app. Qed.

Lemma run_cons ev evs f :
  run requestRecipient (ev :: evs) f
  = ((run requestRecipient evs (handle requestRecipient ev f).1).1,
     (handle requestRecipient ev f).2
     ++ (run requestRecipient evs (handle requestRecipient ev f).1).2).
Proof.
  cbn [run]. destruct (handle requestRecipient ev f) as [f1 log1].
  cbn [fst snd]. by destruct (run requestRecipient evs f1).
Qed.

Lemma bool_decide_elem_of_cons (ev e : Event) evs :
  bool_decide (e ∈ ev :: evs) = bool_decide (e = ev) || bool_decide (e ∈ evs).
Proof.
  apply eq_true_iff_eq.
  rewrite orb_true_iff, !bool_decide_eq_true. apply elem_of_cons.
Qed.

(** The download poller, from any flags. *)
Lemma download_poller_from evs : ∀ f a,
  a = ASetInterval ProcessPending POLL_INTERVAL_MS ∨ a = ACall ProcessPending →
  occurrences a (run requestRecipient evs f).2
  = (if downloadPollerStarted f || negb (bool_decide (ConnectedToGC ∈ evs))
     then 0 else 1)%nat
  ∧ downloadPollerStarted (run requestRecipient evs f).1
    = downloadPollerStarted f || bool_decide (ConnectedToGC ∈ evs).
Proof.
  induction evs as [|ev evs IH]; intros f a Ha.
  - cbn. by rewrite !orb_true_r, orb_false_r.
  - rewrite run_cons, bool_decide_elem_of_cons. cbn [fst snd].
    rewrite occurrences_app.
    destruct (IH (handle requestRecipient ev f).1 a Ha) as [-> ->].
    destruct f as [s g fr d m].
    destruct ev as [|sid rel| | | |]; cbn;
      try (destruct (decide (rel = requestRecipient)));
      try (destruct m); try (destruct d);
      cbn; try done;
      destruct Ha as [-> | ->]; cbn;
      by destruct (bool_decide (ConnectedToGC ∈ evs)).
Qed.

(** The message poller, from any flags. *)
Lemma message_poller_from evs : ∀ f a,
  a = ASetInterval SendPendingMessages POLL_INTERVAL_MS
  ∨ a = ACall SendPendingMessages →
  occurrences a (run requestRecipient evs f).2
  = (if messagePollerStarted f || negb (bool_decide (FriendsList ∈ evs))
     then 0 else 1)%nat
  ∧ messagePollerStarted (run requestRecipient evs f).1
    = messagePollerStarted f || bool_decide (FriendsList ∈ evs).
Proof.
  induction evs as [|ev evs IH]; intros f a Ha.
  - cbn. by rewrite !orb_true_r, orb_false_r.
  - rewrite run_cons, bool_decide_elem_of_cons. cbn [fst snd].
    rewrite occurrences_app.
    destruct (IH (handle requestRecipient ev f).1 a Ha) as [-> ->].
    destruct f as [s g fr d m].
    destruct ev as [|sid rel| | | |]; cbn;
      try (destruct (decide (rel = requestRecipient)));
      try (destruct m); try (destruct d);
      cbn; try done;
      destruct Ha as [-> | ->]; cbn;
      by destruct (bool_decide (FriendsList ∈ evs)).
Qed.

Lemma interval_period evs : ∀ f task ms,
  ASetInterval task ms ∈ (run requestRecipient evs f).2 → ms = POLL_INTERVAL_MS.
Proof.
  induction evs as [|ev evs IH]; intros f task ms.
  - by intros ?%elem_of_nil.
  - rewrite run_cons. cbn [snd]. intros [Hin|Hin]%elem_of_app; [|by eapply IH].
    destruct f as [s g fr d m].
    destruct ev as [|sid rel| | | |]; cbn in Hin;
      try (destruct (decide (rel = requestRecipient)));
      try (destruct m); try (destruct d); cbn in Hin;
      repeat (apply elem_of_cons in Hin as [[=]|Hin]); subst;
      try done; by apply elem_of_nil in Hin.
Qed.

(** X27.  However often the coordinator connects and disconnects and the
    friends list arrives, each poller is started at most once, with a period
    of 30 s and one immediate cycle: the download poller exactly when a
    [connectedToGC] event has arrived, the message poller exactly when a
    [friendsList] event has arrived.  No handler stops a poller. *)
Theorem pollers_started_once evs :
  let result := run requestRecipient evs initial in
  let started (ev : Event) : nat := if bool_decide (ev ∈ evs) then 1%nat else 0%nat in
  occurrences (ASetInterval ProcessPending 30000) result.2 = started ConnectedToGC
  ∧ occurrences (ACall ProcessPending) result.2 = started ConnectedToGC
  ∧ occurrences (ASetInterval SendPendingMessages 30000) result.2
    = started FriendsList
  ∧ occurrences (ACall SendPendingMessages) result.2 = started FriendsList
  ∧ (∀ task ms, ASetInterval task ms ∈ result.2 → ms = 30000)
  ∧ downloadPollerStarted result.1 = bool_decide (ConnectedToGC ∈ evs)
  ∧ messagePollerStarted result.1 = bool_decide (FriendsList ∈ evs).
Proof.
  cbn zeta.
  pose proof (download_poller_from evs initial) as Hd.
  pose proof (message_poller_from evs initial) as Hm.
  cbn [initial downloadPollerStarted messagePollerStarted orb] in Hd, Hm.
  unfold POLL_INTERVAL_MS in Hd, Hm.
  split_and!.
  - rewrite (proj1 (Hd _ (or_introl eq_refl))).
    by destruct (bool_decide (ConnectedToGC ∈ evs)).
  - rewrite (proj1 (Hd _ (or_intror eq_refl))).
    by destruct (bool_decide (ConnectedToGC ∈ evs)).
  - rewrite (proj1 (Hm _ (or_introl eq_refl))).
    by destruct (bool_decide (FriendsList ∈ evs)).
  - rewrite (proj1 (Hm _ (or_intror eq_refl))).
    by destruct (bool_decide (FriendsList ∈ evs)).
  - apply interval_period.
  - apply (proj2 (Hd _ (or_intror eq_refl))).
  - apply (proj2 (Hm _ (or_intror eq_refl))).
Qed.

(** X28.  From any flags, the [addFriend] calls of a run are the accounts of
    the [friendRelationship] events whose relationship is
    [RequestRecipient], in the order of arrival and one call per event: the
    bot accepts every friend request it receives and adds nobody else. *)
Theorem friend_requests_accepted evs : ∀ f,
  added (run requestRecipient evs f).2 = requests requestRecipient evs.
Proof.
  induction evs as [|ev evs IH]; intros f; [done|].
  rewrite run_cons. cbn [snd]. unfold added. rewrite omap_app.
  fold (added (run requestRecipient evs (handle requestRecipient ev f).1).2).
  rewrite IH. destruct f as [s g fr d m].
  destruct ev as [|sid rel| | | |]; cbn;
    try (destruct (decide (rel = requestRecipient)));
    try (destruct m); try (destruct d); done.
Qed.

Lemma lastOf_from up down evs : ∀ acc,
  foldl (λ acc ev, if decide (ev = up) then Some true
                   else if decide (ev = down) then Some false else acc)
        acc evs
  = match lastOf up down evs with Some b => Some b | None => acc end.
Proof.
  unfold lastOf. induction evs as [|ev evs IH] using rev_ind; intros acc.
  - done.
  - rewrite !foldl_snoc. by repeat case_decide.
Qed.

(** X29.  From any flags, [gcReady] after a run is what the last of the
    [connectedToGC] and [disconnectedFromGC] events of the run says, and
    [steamReady] what the last of the [loggedOn] and [error] events says;
    without such an event the flag is unchanged.  These are the flags
    that [processPending] and [sendPendingMessages] test before they do
    anything. *)
Theorem ready_flags_follow_last_event evs : ∀ f,
  gcReady (run requestRecipient evs f).1
  = default (gcReady f) (lastOf ConnectedToGC DisconnectedFromGC evs)
  ∧ steamReady (run requestRecipient evs f).1
    = default (steamReady f) (lastOf LoggedOn ClientError evs).
Proof.
  induction evs as [|ev evs IH]; intros f; [done|].
  rewrite run_cons. cbn [fst].
  destruct (IH (handle requestRecipient ev f).1) as [-> ->].
  unfold lastOf. cbn [foldl]. rewrite !lastOf_from.
  destruct f as [s g fr d m].
  destruct ev as [|sid rel| | | |]; cbn;
    try (destruct (decide (rel = requestRecipient)));
    try (destruct m); try (destruct d); cbn;
    split;
    by repeat match goal with
       | |- context [lastOf ?u ?d ?l] => destruct (lastOf u d l)
       end.
Qed.

End LifecycleFacts.
